(** * A shallow embedding of the parser-combinator package

    The Go package [parser] (parser.go, state.go, the iteration construct and
    sequence.go) and the example configuration grammar built on it are
    transcribed function by function.  A Go call may return, panic (a slice
    expression out of range) or never return (the two [for] loops of the
    package); the type [call] records which.  The two loops are clocked by a
    [fuel] argument, every other function is total as written. *)

From Stdlib Require Import ZArith Bool List String Ascii Lia.
Import ListNotations.

Local Open Scope string_scope.
Local Open Scope Z_scope.

(** ** Go values used by the package *)

(** What a Go call does: it returns a value, it panics, or the clock of a
    loop below it ran out before it returned. *)
Inductive call (A : Type) : Type :=
| Returns (a : A)
| Panics
| Spins.

Arguments Returns {A} a.
Arguments Panics {A}.
Arguments Spins {A}.

Definition bind {A B : Type} (c : call A) (k : A -> call B) : call B :=
  match c with
  | Returns a => k a
  | Panics => Panics
  | Spins => Spins
  end.

Notation "x <- c ;; k" := (bind c (fun x => k))
  (at level 61, c at next level, right associativity).
Notation "' pat <- c ;; k" := (bind c (fun x => match x with pat => k end))
  (at level 61, pat pattern, c at next level, right associativity).

(** Go's [int] on a 64-bit platform: two's complement, additions wrap. *)
Definition min_int : Z := - 2 ^ 63.
Definition max_int : Z := 2 ^ 63 - 1.

Definition int_wrap (z : Z) : Z := (z + 2 ^ 63) mod 2 ^ 64 - 2 ^ 63.

Definition int_add (a b : Z) : Z := int_wrap (a + b).

(** A Go string is a sequence of bytes, as is a [string] here. *)
Definition len (s : string) : Z := Z.of_nat (String.length s).

(** [s[lo:hi]]: panics unless [0 <= lo <= hi <= len(s)]. *)
Definition slice (s : string) (lo hi : Z) : call string :=
  if (0 <=? lo) && (lo <=? hi) && (hi <=? len s)
  then Returns (substring (Z.to_nat lo) (Z.to_nat (hi - lo)) s)
  else Panics.

(** [s[lo:]] *)
Definition slice_from (s : string) (lo : Z) : call string :=
  slice s lo (len s).

(** [s[i]] as a number, for an index the caller has checked. *)
Definition byte_at (s : string) (i : nat) : Z :=
  match String.get i s with
  | Some c => Z.of_nat (nat_of_ascii c)
  | None => 0
  end.

(** The type [rune] is [int32]; the decoder only produces 0 .. 0x10FFFF. *)
Definition rune : Type := Z.

(** ** Standard-library functions the package calls *)

Module utf8.

Definition RuneError : rune := 0xFFFD.

Definition maskx : Z := 0x3F.
Definition mask2 : Z := 0x1F.
Definition mask3 : Z := 0x0F.
Definition mask4 : Z := 0x07.

Definition locb : Z := 0x80.
Definition hicb : Z := 0xBF.

Definition xx : Z := 0xF1.
Definition as_ : Z := 0xF0.
Definition s1 : Z := 0x02.
Definition s2 : Z := 0x13.
Definition s3 : Z := 0x03.
Definition s4 : Z := 0x23.
Definition s5 : Z := 0x34.
Definition s6 : Z := 0x04.
Definition s7 : Z := 0x44.

(** The table [first], by ranges of the leading byte. *)
Definition first (b : Z) : Z :=
  if b <? 0x80 then as_
  else if b <? 0xC2 then xx
  else if b <? 0xE0 then s1
  else if b =? 0xE0 then s2
  else if b <? 0xED then s3
  else if b =? 0xED then s4
  else if b <? 0xF0 then s3
  else if b =? 0xF0 then s5
  else if b <? 0xF4 then s6
  else if b =? 0xF4 then s7
  else xx.

(** The table [acceptRanges]: bounds on the second byte. *)
Definition acceptRanges (i : Z) : Z * Z :=
  if i =? 0 then (locb, hicb)
  else if i =? 1 then (0xA0, hicb)
  else if i =? 2 then (locb, 0x9F)
  else if i =? 3 then (0x90, hicb)
  else if i =? 4 then (locb, 0x8F)
  else (0, 0).

(** [utf8.DecodeRuneInString]: the first code point of [s] and its width in
    bytes; [(RuneError, 0)] for the empty string and [(RuneError, 1)] for
    an invalid encoding. *)
Definition DecodeRuneInString (s : string) : rune * Z :=
  let n := len s in
  if n <? 1 then (RuneError, 0) else
  let s0 := byte_at s 0 in
  let x := first s0 in
  if as_ <=? x then ((if x =? xx then RuneError else s0), 1) else
  let sz := Z.land x 7 in
  let '(lo, hi) := acceptRanges (Z.shiftr x 4) in
  if n <? sz then (RuneError, 1) else
  let s1 := byte_at s 1 in
  if (s1 <? lo) || (hi <? s1) then (RuneError, 1) else
  if sz <=? 2 then
    (Z.lor (Z.shiftl (Z.land s0 mask2) 6) (Z.land s1 maskx), 2) else
  let s2 := byte_at s 2 in
  if (s2 <? locb) || (hicb <? s2) then (RuneError, 1) else
  if sz <=? 3 then
    (Z.lor (Z.lor (Z.shiftl (Z.land s0 mask3) 12)
                  (Z.shiftl (Z.land s1 maskx) 6))
           (Z.land s2 maskx), 3) else
  let s3 := byte_at s 3 in
  if (s3 <? locb) || (hicb <? s3) then (RuneError, 1) else
  (Z.lor (Z.lor (Z.lor (Z.shiftl (Z.land s0 mask4) 18)
                       (Z.shiftl (Z.land s1 maskx) 12))
                (Z.shiftl (Z.land s2 maskx) 6))
         (Z.land s3 maskx), 4).

End utf8.

Module strings.

(** [strings.HasPrefix]:
    [len(s) >= len(prefix) && s[:len(prefix)] == prefix]. *)
Definition HasPrefix (s prefix : string) : bool :=
  (len prefix <=? len s)
  && String.eqb (substring 0 (String.length prefix) s) prefix.

End strings.

Module strconv.

(** The decimal digits of [s], most significant first, folded into [acc];
    [None] at the first byte that is not a digit. *)
Fixpoint digits (s : string) (acc : Z) : option Z :=
  match s with
  | EmptyString => Some acc
  | String c rest =>
      let d := Z.of_nat (nat_of_ascii c) - 48 in
      if (0 <=? d) && (d <=? 9) then digits rest (acc * 10 + d) else None
  end.

(** [strconv.Atoi]: an optional sign and at least one decimal digit, the
    value within the range of [int]; [None] stands for a non-nil error. *)
Definition Atoi (s : string) : option Z :=
  let '(neg, body) :=
    match s with
    | String "-" rest => (true, rest)
    | String "+" rest => (false, rest)
    | _ => (false, s)
    end in
  match body with
  | EmptyString => None
  | _ =>
      match digits body 0 with
      | None => None
      | Some n =>
          let v := if neg then - n else n in
          if (min_int <=? v) && (v <=? max_int) then Some v else None
      end
  end.

End strconv.

(** ** Package parser *)

Module parser.

(** [Empty] is [struct{}], with the single value [Empty{}]. *)
Inductive Empty : Type := MkEmpty.

(** Values of the interface type [error]: the two package variables and any
    other error value a caller's own code may carry. *)
Inductive error : Type :=
| ErrNoMatch
| ErrUnconsumedInput
| ErrOther (msg : string).

(** The pair (T, error) a Go function returns: the value when the error is
    nil, the error otherwise (the value returned next to a non-nil error is
    the zero value, which no caller in the package reads). *)
Inductive res (T : Type) : Type :=
| Val (v : T)
| Error (err : error).

Arguments Val {T} v.
Arguments Error {T} err.

(** state.go *)

Record state : Type := { data : string; offset : Z }.

Definition remaining (s : state) : call string :=
  slice_from (data s) (offset s).

Definition consume (s : state) (n : Z) : state :=
  {| data := data s; offset := int_add (offset s) n |}.

Definition nextRune (s : state) : call (rune * state) :=
  rem <- remaining s ;;
  let '(r, w) := utf8.DecodeRuneInString rem in
  Returns (r, consume s w).

(** parser.go *)

Definition Parser (T : Type) : Type := state -> call (res T * state).

Definition Parse {T : Type} (parser : Parser T) (data : string)
  : call (res T) :=
  let initial := {| data := data; offset := 0 |} in
  '(r, final) <- parser initial ;;
  match r with
  | Error err => Returns (Error err)
  | Val result =>
      if offset final <? len (parser.data final)
      then Returns (Error ErrUnconsumedInput)
      else Returns (Val result)
  end.

Definition Fail {T : Type} : Parser T :=
  fun initial => Returns (Error ErrNoMatch, initial).

Definition Succeed {T : Type} (value : T) : Parser T :=
  fun initial => Returns (Val value, initial).

Definition Map {T A : Type} (parser : Parser T) (mapper : T -> A)
  : Parser A :=
  fun initial =>
    '(r, next) <- parser initial ;;
    match r with
    | Error err => Returns (Error err, initial)
    | Val t => Returns (Val (mapper t), next)
    end.

Definition AndThen {T U : Type} (parser : Parser T) (handler : T -> Parser U)
  : Parser U :=
  fun initial =>
    '(r, next) <- parser initial ;;
    match r with
    | Error err => Returns (Error err, initial)
    | Val t =>
        let nextParser := handler t in
        nextParser next
    end.

(** The [range] loop of [OneOf]; [err] is the variable the loop assigns. *)
Fixpoint OneOf_range {T : Type} (parsers : list (Parser T)) (initial : state)
  (err : error) : call (res T * state) :=
  match parsers with
  | [] => Returns (Error err, initial)
  | parser :: rest =>
      '(r, next) <- parser initial ;;
      match r with
      | Val result => Returns (Val result, next)
      | Error err' => OneOf_range rest initial err'
      end
  end.

Definition OneOf {T : Type} (parsers : list (Parser T)) : Parser T :=
  fun initial => OneOf_range parsers initial ErrNoMatch.

Definition ConsumeIf (condition : rune -> bool) : Parser Empty :=
  fun initial =>
    '(r, next) <- nextRune initial ;;
    if negb (condition r)
    then Returns (Error ErrNoMatch, initial)
    else Returns (Val MkEmpty, next).

(** The [for] loop of [ConsumeWhile], one iteration per unit of fuel. *)
Fixpoint ConsumeWhile_for (fuel : nat) (condition : rune -> bool)
  (current : state) : call (res Empty * state) :=
  match fuel with
  | O => Spins
  | S fuel' =>
      '(r, next) <- nextRune current ;;
      if negb (condition r)
      then Returns (Val MkEmpty, current)
      else ConsumeWhile_for fuel' condition next
  end.

Definition ConsumeWhile (fuel : nat) (condition : rune -> bool)
  : Parser Empty :=
  fun initial => ConsumeWhile_for fuel condition initial.

Definition Exactly (token : string) : Parser Empty :=
  fun initial =>
    rem <- remaining initial ;;
    if strings.HasPrefix rem token
    then
      let next := consume initial (len token) in
      Returns (Val MkEmpty, next)
    else Returns (Error ErrNoMatch, initial).

Definition GetString {T : Type} (parser : Parser T) : Parser string :=
  fun initial =>
    let start := offset initial in
    '(r, next) <- parser initial ;;
    match r with
    | Error err => Returns (Error err, initial)
    | Val _ =>
        let end_ := offset next in
        sub <- slice (data next) start end_ ;;
        Returns (Val sub, next)
    end.

(** The iteration construct *)

Record Step (A T : Type) : Type :=
  { Done : bool; Accum : A; Value : T }.

Arguments Done {A T} _.
Arguments Accum {A T} _.
Arguments Value {A T} _.

(** The [for] loop of [Loop], one iteration per unit of fuel. *)
Fixpoint Loop_for {A T : Type} (fuel : nat)
  (stepper : A -> Parser (Step A T)) (initial : state)
  (accum : A) (currentState : state) : call (res T * state) :=
  match fuel with
  | O => Spins
  | S fuel' =>
      let parser := stepper accum in
      '(r, nextState) <- parser currentState ;;
      match r with
      | Error err => Returns (Error err, initial)
      | Val step =>
          if Done step
          then Returns (Val (Value step), nextState)
          else Loop_for fuel' stepper initial (Accum step) nextState
      end
  end.

Definition Loop {A T : Type} (fuel : nat) (startAccum : A)
  (stepper : A -> Parser (Step A T)) : Parser T :=
  fun initial => Loop_for fuel stepper initial startAccum initial.

(** sequence.go *)

Record Seq (T U : Type) : Type := { first : T; second : U }.

Arguments first {T U} _.
Arguments second {T U} _.

Definition StartKeeping {T : Type} (parser : Parser T)
  : Parser (Seq Empty T) :=
  Map parser (fun t => {| first := MkEmpty; second := t |}).

Definition StartSkipping {T : Type} (parser : Parser T) : Parser Empty :=
  Map parser (fun _ => MkEmpty).

Definition AppendKeeping {T U : Type} (parserT : Parser T)
  (parserU : Parser U) : Parser (Seq T U) :=
  fun initial =>
    '(rt, next) <- parserT initial ;;
    match rt with
    | Error err => Returns (Error err, initial)
    | Val t =>
        '(ru, final) <- parserU next ;;
        match ru with
        | Error err => Returns (Error err, initial)
        | Val u => Returns (Val {| first := t; second := u |}, final)
        end
    end.

Definition AppendSkipping {T U : Type} (parserT : Parser T)
  (parserU : Parser U) : Parser T :=
  fun initial =>
    '(rt, next) <- parserT initial ;;
    match rt with
    | Error err => Returns (Error err, initial)
    | Val t =>
        '(ru, final) <- parserU next ;;
        match ru with
        | Error err => Returns (Error err, initial)
        | Val _ => Returns (Val t, final)
        end
    end.

Definition Apply {T A : Type} (parser : Parser (Seq Empty T))
  (mapper : T -> A) : Parser A :=
  fun initial =>
    '(r, next) <- parser initial ;;
    match r with
    | Error err => Returns (Error err, initial)
    | Val seq => Returns (Val (mapper (second seq)), next)
    end.

Definition Apply2 {T U A : Type} (parser : Parser (Seq (Seq Empty T) U))
  (mapper : T -> U -> A) : Parser A :=
  fun initial =>
    '(r, next) <- parser initial ;;
    match r with
    | Error err => Returns (Error err, initial)
    | Val seq => Returns (Val (mapper (second (first seq)) (second seq)), next)
    end.

Definition Apply3 {T U V A : Type}
  (parser : Parser (Seq (Seq (Seq Empty T) U) V))
  (mapper : T -> U -> V -> A) : Parser A :=
  fun initial =>
    '(r, next) <- parser initial ;;
    match r with
    | Error err => Returns (Error err, initial)
    | Val seq =>
        Returns (Val (mapper (second (first (first seq)))
                             (second (first seq)) (second seq)), next)
    end.

(** [ConsumeSome] uses the sequence combinators (parser.go). *)
Definition ConsumeSome (fuel : nat) (condition : rune -> bool)
  : Parser Empty :=
  let s := StartSkipping (ConsumeIf condition) in
  AppendSkipping s (ConsumeWhile fuel condition).

End parser.

(** ** Package example: the configuration grammar *)

Module example.

Import parser.

Inductive BindingValue : Type :=
| BindingInt (i : Z)
| BindingBool (b : bool).

Record Binding : Type := { Name : string; Value : BindingValue }.

Definition Bindings : Type := list Binding.

(** The rune of a character literal such as ['a']. *)
Definition chr (c : ascii) : rune := Z.of_nat (nat_of_ascii c).

Definition isAsciiLetter (r : rune) : bool :=
  (r >=? chr "a") && (r <=? chr "z") || (r >=? chr "A") && (r <=? chr "Z").

Definition isDecimalDigit (r : rune) : bool :=
  (r >=? chr "0") && (r <=? chr "9").

Definition isAlphaNum (r : rune) : bool :=
  isAsciiLetter r || isDecimalDigit r.

Definition isWhitespace (r : rune) : bool :=
  (r =? chr " ") || (r =? chr "010") || (r =? chr "009").

(** [*BindingList]: nil, or a pointer to a node that is never written to
    after its allocation. *)
Inductive BindingList : Type :=
| nil_BindingList
| new_BindingList (binding : Binding) (next : BindingList).

(** The loop that copies the linked list into [bindingSlice], from the head
    of the list on. *)
Fixpoint bindingSlice_for (b : BindingList) (bindingSlice : list Binding)
  : list Binding :=
  match b with
  | nil_BindingList => bindingSlice
  | new_BindingList binding next =>
      bindingSlice_for next (bindingSlice ++ [binding])
  end.

Record ConfigParsers : Type :=
  { trueParser : Parser bool;
    falseParser : Parser bool;
    boolParser : Parser bool;
    intParser : Parser Z;
    valueParser : Parser BindingValue;
    nameParser : Parser string;
    bindingParser : Parser Binding;
    whitespaceParser : Parser Empty;
    bindingsParser : Parser (list Binding);
    ConfigurationParser : Parser (list Binding) }.

(** The handler of [intParser]. *)
Definition intParser_handler (digits : string) : Parser Z :=
  if (len digits >? 1) && (byte_at digits 0 =? chr "0") then Fail
  else
    match strconv.Atoi digits with
    | None => Fail
    | Some v => Succeed v
    end.

(** The stepper of [bindingsParser]. *)
Definition bindingsParser_stepper (bindingParser : Parser Binding)
  (whitespaceParser : Parser Empty) (bindings : BindingList)
  : Parser (Step BindingList (list Binding)) :=
  match bindings with
  | nil_BindingList =>
      Map bindingParser
        (fun binding =>
           {| Accum := new_BindingList binding nil_BindingList;
              Done := false;
              parser.Value := [] |})
  | _ =>
      let s := StartSkipping whitespaceParser in
      let s1 := AppendSkipping s (Exactly ",") in
      let s2 := AppendSkipping s1 whitespaceParser in
      let s3 := AppendKeeping s2 bindingParser in
      let extend :=
        Apply s3 (fun b =>
          {| Accum := new_BindingList b bindings;
             Done := false;
             parser.Value := [] |}) in
      let bindingSlice := bindingSlice_for bindings [] in
      OneOf [ extend;
              Succeed {| parser.Value := bindingSlice;
                         Done := true;
                         Accum := nil_BindingList |} ]
  end.

(** The clock [fuel] is handed to every [ConsumeWhile], [ConsumeSome] and
    [Loop] of the grammar. *)
Definition NewConfigParser (fuel : nat) : ConfigParsers :=
  let trueParser := Map (Exactly "true") (fun _ => true) in
  let falseParser := Map (Exactly "false") (fun _ => false) in
  let boolParser := OneOf [trueParser; falseParser] in
  let intParser :=
    AndThen (GetString (ConsumeSome fuel isDecimalDigit)) intParser_handler in
  let valueParser :=
    OneOf [ Map boolParser (fun v => BindingBool v);
            Map intParser (fun i => BindingInt i) ] in
  let nameParser :=
    GetString
      (AndThen (ConsumeIf isAsciiLetter)
               (fun _ => ConsumeWhile fuel isAlphaNum)) in
  let whitespaceParser := ConsumeWhile fuel isWhitespace in
  let bindingParser :=
    let s := StartKeeping nameParser in
    let s1 := AppendSkipping s whitespaceParser in
    let s2 := AppendSkipping s1 (Exactly "=") in
    let s3 := AppendSkipping s2 whitespaceParser in
    let s4 := AppendKeeping s3 valueParser in
    Apply2 s4 (fun name value => {| Name := name; Value := value |}) in
  let bindingsParser :=
    Loop fuel nil_BindingList
      (bindingsParser_stepper bindingParser whitespaceParser) in
  let ConfigurationParser :=
    let s := StartSkipping (Exactly "[") in
    let s1 := AppendSkipping s whitespaceParser in
    let s2 := AppendKeeping s1 bindingsParser in
    let s3 := AppendSkipping s2 whitespaceParser in
    let s4 := AppendSkipping s3 (Exactly "]") in
    Apply s4 (fun b => b) in
  {| trueParser := trueParser;
     falseParser := falseParser;
     boolParser := boolParser;
     intParser := intParser;
     valueParser := valueParser;
     nameParser := nameParser;
     bindingParser := bindingParser;
     whitespaceParser := whitespaceParser;
     bindingsParser := bindingsParser;
     ConfigurationParser := ConfigurationParser |}.

End example.

Import parser.

(** ** Predicates the statements are written with *)

(** [s] is a value of the Go type [state]: the length of a Go string fits
    an [int]. *)
Definition go_state (s : state) : Prop := len (data s) <= max_int.

(** The cursor invariant. *)
Definition in_bounds (s : state) : Prop := 0 <= offset s <= len (data s).

(** [s'] is a cursor on the same input as [s], not before [s] and not past
    the end. *)
Definition follows (s s' : state) : Prop :=
  data s' = data s /\ offset s <= offset s' <= len (data s').

(** The parsers obtained from the package's creation and combination
    functions; mappers, handlers and steppers are arbitrary functions of the
    caller, the parsers they hand back are again built from the package. *)
Inductive Built : forall {T : Type}, Parser T -> Prop :=
| Built_Succeed {T} (value : T) : Built (Succeed value)
| Built_Fail {T} : Built (@Fail T)
| Built_Map {T A} (p : Parser T) (mapper : T -> A) :
    Built p -> Built (Map p mapper)
| Built_AndThen {T U} (p : Parser T) (handler : T -> Parser U) :
    Built p -> (forall t, Built (handler t)) -> Built (AndThen p handler)
| Built_OneOf {T} (parsers : list (Parser T)) :
    (forall p, In p parsers -> Built p) -> Built (OneOf parsers)
| Built_ConsumeIf condition : Built (ConsumeIf condition)
| Built_ConsumeWhile fuel condition : Built (ConsumeWhile fuel condition)
| Built_ConsumeSome fuel condition : Built (ConsumeSome fuel condition)
| Built_Exactly token : Built (Exactly token)
| Built_GetString {T} (p : Parser T) : Built p -> Built (GetString p)
| Built_StartKeeping {T} (p : Parser T) : Built p -> Built (StartKeeping p)
| Built_StartSkipping {T} (p : Parser T) : Built p -> Built (StartSkipping p)
| Built_AppendKeeping {T U} (p : Parser T) (q : Parser U) :
    Built p -> Built q -> Built (AppendKeeping p q)
| Built_AppendSkipping {T U} (p : Parser T) (q : Parser U) :
    Built p -> Built q -> Built (AppendSkipping p q)
| Built_Apply {T A} (p : Parser (Seq Empty T)) (mapper : T -> A) :
    Built p -> Built (Apply p mapper)
| Built_Apply2 {T U A} (p : Parser (Seq (Seq Empty T) U))
    (mapper : T -> U -> A) :
    Built p -> Built (Apply2 p mapper)
| Built_Apply3 {T U V A} (p : Parser (Seq (Seq (Seq Empty T) U) V))
    (mapper : T -> U -> V -> A) :
    Built p -> Built (Apply3 p mapper)
| Built_Loop {A T} fuel (startAccum : A)
    (stepper : A -> Parser (Step A T)) :
    (forall accum, Built (stepper accum)) ->
    Built (Loop fuel startAccum stepper).

(** What a parser does to a cursor that satisfies the invariant: it does not
    panic, and the cursor it returns follows the one it was given. *)
Definition advances {T : Type} (p : Parser T) : Prop :=
  forall s, go_state s -> in_bounds s ->
    match p s with
    | Returns (_, s') => follows s s'
    | Panics => False
    | Spins => True
    end.

(** The iterations of [Loop]: [LoopReaches stepper startAccum initial n accum
    current] when the loop entered at [initial] begins its iteration number
    [n] (from 0) with accumulator [accum] at cursor [current]. *)
Inductive LoopReaches {A T : Type} (stepper : A -> Parser (Step A T))
  (startAccum : A) (initial : state) : nat -> A -> state -> Prop :=
| LoopReaches_entry : LoopReaches stepper startAccum initial 0 startAccum initial
| LoopReaches_continue n accum current step next :
    LoopReaches stepper startAccum initial n accum current ->
    stepper accum current = Returns (Val step, next) ->
    Done step = false ->
    LoopReaches stepper startAccum initial (S n) (Accum step) next.

(** Every parser of the list fails at [s]. *)
Definition all_fail {T : Type} (parsers : list (Parser T)) (s : state)
  : Prop :=
  forall p, In p parsers -> exists err st, p s = Returns (Error err, st).

(** ** A small loop used to exercise [Loop] *)

(** A stepper that counts the letters "a" up to a ";" . *)
Definition count_a (n : Z) : Parser (Step Z Z) :=
  OneOf [ Map (Exactly "a")
            (fun _ => {| Done := false; Accum := n + 1; parser.Value := 0 |});
          Map (Exactly ";")
            (fun _ => {| Done := true; Accum := 0; parser.Value := n |}) ].

(** ** Predicates for the laws of the combinators *)

(** Two outcomes that differ at most in the cursor returned next to an
    error, the one part of a result nothing in the package reads. *)
Definition agree {T : Type} (c1 c2 : call (res T * state)) : Prop :=
  match c1, c2 with
  | Returns (Val v1, s1), Returns (Val v2, s2) => v1 = v2 /\ s1 = s2
  | Returns (Error e1, _), Returns (Error e2, _) => e1 = e2
  | Panics, Panics => True
  | Spins, Spins => True
  | _, _ => False
  end.

(** A failure of [p] hands back the cursor [p] was entered with. *)
Definition restores {T : Type} (p : Parser T) : Prop :=
  forall s err st, p s = Returns (Error err, st) -> st = s.

(** [p] returns, without a panic, on every cursor within bounds that has
    fewer than [n] bytes left, and the cursor it returns follows. *)
Definition total_from {T : Type} (n : nat) (p : Parser T) : Prop :=
  forall s, go_state s -> in_bounds s ->
    len (data s) - offset s < Z.of_nat n ->
    exists r s', p s = Returns (r, s') /\ follows s s'.

(** A success of [p] on a cursor within bounds consumes at least a byte. *)
Definition progresses {T : Type} (p : Parser T) : Prop :=
  forall s, go_state s -> in_bounds s ->
    forall v s', p s = Returns (Val v, s') -> offset s < offset s'.

(** The only error [p] fails with is [ErrNoMatch]. *)
Definition no_other_error {T : Type} (p : Parser T) : Prop :=
  forall s err st, p s = Returns (Error err, st) -> err = ErrNoMatch.

(** The linked list the stepper of [bindingsParser] has accumulated once the
    bindings [bs] were parsed in that order: each one is put in front. *)
Definition prepend_all (bs : list example.Binding) : example.BindingList :=
  fold_left (fun bindings b => example.new_BindingList b bindings) bs
    example.nil_BindingList.

(** ** Strings, integers and the decoder *)

Lemma int_wrap_small (z : Z) : min_int <= z <= max_int -> int_wrap z = z.
Proof.
  unfold int_wrap, min_int, max_int. intros H.
  rewrite Z.mod_small by lia. lia.
Qed.

Lemma length_substring (s : string) :
  forall n m, (n + m <= String.length s)%nat ->
    String.length (substring n m s) = m.
Proof.
  induction s as [|c s IH]; intros n m H; simpl in H.
  - assert (n = 0%nat /\ m = 0%nat) as [-> ->] by lia. reflexivity.
  - destruct n as [|n]; destruct m as [|m]; simpl; try reflexivity.
    + f_equal. apply IH. lia.
    + apply IH. lia.
    + apply IH. simpl. lia.
Qed.

Lemma slice_returns (s : string) (lo hi : Z) :
  0 <= lo <= hi -> hi <= len s ->
  slice s lo hi = Returns (substring (Z.to_nat lo) (Z.to_nat (hi - lo)) s).
Proof.
  intros [H0 H1] H2. unfold slice.
  replace (0 <=? lo) with true by (symmetry; apply Z.leb_le; lia).
  replace (lo <=? hi) with true by (symmetry; apply Z.leb_le; lia).
  replace (hi <=? len s) with true by (symmetry; apply Z.leb_le; lia).
  reflexivity.
Qed.

Lemma slice_inv (s : string) (lo hi : Z) (sub : string) :
  slice s lo hi = Returns sub ->
  0 <= lo <= hi /\ hi <= len s /\ len sub = hi - lo.
Proof.
  unfold slice.
  destruct (0 <=? lo) eqn:E0; [|discriminate].
  destruct (lo <=? hi) eqn:E1; [|discriminate].
  destruct (hi <=? len s) eqn:E2; [|discriminate].
  simpl. intros [= <-].
  apply Z.leb_le in E0, E1, E2. unfold len in *.
  rewrite length_substring by lia. lia.
Qed.

Lemma slice_not_spins (s : string) (lo hi : Z) : slice s lo hi <> Spins.
Proof. unfold slice. destruct (_ && _); discriminate. Qed.

Lemma len_nonneg (s : string) : 0 <= len s.
Proof. unfold len. lia. Qed.

Lemma len_zero (s : string) : len s = 0 -> s = "".
Proof. destruct s; [reflexivity | unfold len; simpl; lia]. Qed.

(** The width the decoder reports: 0 exactly for the empty string, where the
    rune is [RuneError], and otherwise between 1 and the bytes there are. *)
Lemma DecodeRuneInString_width (s : string) :
  forall r w, utf8.DecodeRuneInString s = (r, w) ->
    (len s = 0 -> r = utf8.RuneError /\ w = 0) /\
    (0 < len s -> 1 <= w <= len s).
Proof.
  intros r w. unfold utf8.DecodeRuneInString.
  destruct (len s <? 1) eqn:En.
  - intros [= <- <-]. apply Z.ltb_lt in En. split; [auto | lia].
  - apply Z.ltb_ge in En.
    assert (Hgoal : forall r' w', 1 <= w' <= len s ->
              (r', w') = (r, w) ->
              (len s = 0 -> r = utf8.RuneError /\ w = 0) /\
              (0 < len s -> 1 <= w <= len s)).
    { intros r' w' Hw [= <- <-]. split; [lia | auto]. }
    unfold utf8.first.
    repeat match goal with
           | |- context [if ?b then _ else _] =>
               lazymatch b with
               | (byte_at s 0 <? _) => destruct b
               | (byte_at s 0 =? _) => destruct b
               end
           end;
      cbv [utf8.xx utf8.as_ utf8.s1 utf8.s2 utf8.s3 utf8.s4 utf8.s5 utf8.s6
           utf8.s7 utf8.acceptRanges utf8.locb utf8.hicb];
      cbn -[byte_at len Z.lor Z.shiftl];
      try (apply Hgoal; lia);
      (destruct (len s <? _) eqn:E1; [apply Hgoal; lia | apply Z.ltb_ge in E1]);
      repeat match goal with
             | |- context [if ?b then _ else _] => destruct b
             end;
      apply Hgoal; lia.
Qed.

(** ** The cursor *)

Lemma follows_refl (s : state) : in_bounds s -> follows s s.
Proof. unfold follows, in_bounds. intros H. split; [reflexivity | lia]. Qed.

Lemma follows_trans (a b c : state) : follows a b -> follows b c -> follows a c.
Proof.
  unfold follows. intros [Hd1 Ho1] [Hd2 Ho2]. split; [congruence | lia].
Qed.

Lemma follows_go_state (s s' : state) : go_state s -> follows s s' -> go_state s'.
Proof. unfold go_state, follows. intros H [Hd _]. rewrite Hd. exact H. Qed.

Lemma follows_in_bounds (s s' : state) :
  in_bounds s -> follows s s' -> in_bounds s'.
Proof. unfold in_bounds, follows. intros H [_ Ho]. lia. Qed.

Lemma consume_zero (s : state) :
  min_int <= offset s <= max_int -> consume s 0 = s.
Proof.
  intros H. destruct s as [d o]. unfold consume, int_add. simpl in *.
  rewrite Z.add_0_r, int_wrap_small by exact H. reflexivity.
Qed.

Lemma consume_follows (s : state) (n : Z) :
  go_state s -> in_bounds s -> 0 <= n <= len (data s) - offset s ->
  follows s (consume s n) /\ offset (consume s n) = offset s + n.
Proof.
  unfold go_state, in_bounds, follows, consume, int_add. simpl.
  intros Hg Hb Hn.
  rewrite int_wrap_small by (unfold min_int, max_int in *; lia).
  repeat split; lia.
Qed.

Lemma remaining_returns (s : state) :
  in_bounds s ->
  exists rem, remaining s = Returns rem /\ len rem = len (data s) - offset s.
Proof.
  unfold in_bounds, remaining, slice_from. intros H.
  rewrite slice_returns by lia. eexists. split; [reflexivity|].
  unfold len. rewrite length_substring; unfold len in H; lia.
Qed.

(** [nextRune] on a cursor within bounds: it returns, the new cursor follows
    the old one, it is the old one at the end of the input and a later one
    before the end. *)
Lemma nextRune_returns (s : state) :
  go_state s -> in_bounds s ->
  exists r s',
    nextRune s = Returns (r, s') /\ follows s s' /\
    (offset s = len (data s) -> r = utf8.RuneError /\ s' = s) /\
    (offset s < len (data s) -> offset s < offset s').
Proof.
  intros Hg Hb.
  destruct (remaining_returns s Hb) as (rem & Hrem & Hlen).
  unfold nextRune. rewrite Hrem. simpl.
  destruct (utf8.DecodeRuneInString rem) as [r w] eqn:Ed.
  destruct (DecodeRuneInString_width rem r w Ed) as [Hz Hp].
  exists r, (consume s w). split; [reflexivity|].
  assert (Hw : 0 <= w <= len (data s) - offset s).
  { destruct (Z.eq_dec (len rem) 0) as [E|E].
    - destruct (Hz E) as [_ ->]. lia.
    - pose proof (len_nonneg rem). lia. }
  destruct (consume_follows s w Hg Hb Hw) as [Hf Ho].
  split; [exact Hf|]. split.
  - intros He. destruct Hz as [-> ->]; [lia|]. split; [reflexivity|].
    apply consume_zero. unfold go_state, in_bounds, min_int, max_int in *. lia.
  - intros Hlt. rewrite Ho. lia.
Qed.

(** ** Every combinator keeps the cursor within bounds *)

Ltac run p s :=
  let E := fresh "E" in
  destruct (p s) as [[[?v|?err] ?s']| |] eqn:E; simpl.

Lemma advances_Succeed {T} (value : T) : advances (Succeed value).
Proof. intros s _ Hb. simpl. apply follows_refl, Hb. Qed.

Lemma advances_Fail {T} : advances (@Fail T).
Proof. intros s _ Hb. simpl. apply follows_refl, Hb. Qed.

Lemma advances_Map {T A} (p : Parser T) (mapper : T -> A) :
  advances p -> advances (Map p mapper).
Proof.
  intros Hp s Hg Hb. specialize (Hp s Hg Hb). unfold Map.
  run p s; auto. apply follows_refl, Hb.
Qed.

Lemma advances_AndThen {T U} (p : Parser T) (handler : T -> Parser U) :
  advances p -> (forall t, advances (handler t)) -> advances (AndThen p handler).
Proof.
  intros Hp Hh s Hg Hb. specialize (Hp s Hg Hb). unfold AndThen.
  run p s; auto.
  - specialize (Hh v s' (follows_go_state _ _ Hg Hp)
                  (follows_in_bounds _ _ Hb Hp)).
    destruct (handler v s') as [[r s'']| |]; auto.
    eapply follows_trans; eassumption.
  - apply follows_refl, Hb.
Qed.

Lemma advances_OneOf_range {T} (parsers : list (Parser T)) :
  (forall p, In p parsers -> advances p) ->
  forall s err, go_state s -> in_bounds s ->
    match OneOf_range parsers s err with
    | Returns (_, s') => follows s s'
    | Panics => False
    | Spins => True
    end.
Proof.
  induction parsers as [|p rest IH]; intros Hall s err Hg Hb; simpl.
  - apply follows_refl, Hb.
  - pose proof (Hall p (or_introl eq_refl) s Hg Hb) as Hp.
    run p s; auto.
    apply IH; auto. intros q Hq. apply Hall. right. exact Hq.
Qed.

Lemma advances_OneOf {T} (parsers : list (Parser T)) :
  (forall p, In p parsers -> advances p) -> advances (OneOf parsers).
Proof. intros Hall s Hg Hb. apply advances_OneOf_range; assumption. Qed.

Lemma advances_ConsumeIf condition : advances (ConsumeIf condition).
Proof.
  intros s Hg Hb. unfold ConsumeIf.
  destruct (nextRune_returns s Hg Hb) as (r & s' & -> & Hf & _). simpl.
  destruct (condition r); simpl; [exact Hf | apply follows_refl, Hb].
Qed.

Lemma advances_ConsumeWhile fuel condition :
  advances (ConsumeWhile fuel condition).
Proof.
  unfold ConsumeWhile.
  induction fuel as [|fuel IH]; intros s Hg Hb; simpl; [exact I|].
  destruct (nextRune_returns s Hg Hb) as (r & s' & -> & Hf & _). simpl.
  destruct (condition r); simpl; [|apply follows_refl, Hb].
  specialize (IH s' (follows_go_state _ _ Hg Hf) (follows_in_bounds _ _ Hb Hf)).
  destruct (ConsumeWhile_for fuel condition s') as [[r' s'']| |]; auto.
  eapply follows_trans; eassumption.
Qed.

Lemma HasPrefix_len (s prefix : string) :
  strings.HasPrefix s prefix = true -> len prefix <= len s.
Proof.
  unfold strings.HasPrefix. intros H. apply andb_true_iff in H.
  destruct H as [H _]. apply Z.leb_le. exact H.
Qed.

Lemma advances_Exactly token : advances (Exactly token).
Proof.
  intros s Hg Hb. unfold Exactly.
  destruct (remaining_returns s Hb) as (rem & -> & Hlen). simpl.
  destruct (strings.HasPrefix rem token) eqn:Ep; [|apply follows_refl, Hb].
  apply HasPrefix_len in Ep. pose proof (len_nonneg token).
  apply consume_follows; auto. lia.
Qed.

Lemma advances_GetString {T} (p : Parser T) :
  advances p -> advances (GetString p).
Proof.
  intros Hp s Hg Hb. specialize (Hp s Hg Hb). unfold GetString.
  run p s; auto; [|apply follows_refl, Hb].
  destruct Hp as [Hd Ho]. rewrite slice_returns by (unfold in_bounds in Hb; lia).
  simpl. split; assumption.
Qed.

Lemma advances_AppendKeeping {T U} (p : Parser T) (q : Parser U) :
  advances p -> advances q -> advances (AppendKeeping p q).
Proof.
  intros Hp Hq s Hg Hb. specialize (Hp s Hg Hb). unfold AppendKeeping.
  run p s; auto; [|apply follows_refl, Hb].
  specialize (Hq s' (follows_go_state _ _ Hg Hp) (follows_in_bounds _ _ Hb Hp)).
  run q s'; auto; [|apply follows_refl, Hb].
  eapply follows_trans; eassumption.
Qed.

Lemma advances_AppendSkipping {T U} (p : Parser T) (q : Parser U) :
  advances p -> advances q -> advances (AppendSkipping p q).
Proof.
  intros Hp Hq s Hg Hb. specialize (Hp s Hg Hb). unfold AppendSkipping.
  run p s; auto; [|apply follows_refl, Hb].
  specialize (Hq s' (follows_go_state _ _ Hg Hp) (follows_in_bounds _ _ Hb Hp)).
  run q s'; auto; [|apply follows_refl, Hb].
  eapply follows_trans; eassumption.
Qed.

Lemma advances_Apply {T A} (p : Parser (Seq Empty T)) (mapper : T -> A) :
  advances p -> advances (Apply p mapper).
Proof.
  intros Hp s Hg Hb. specialize (Hp s Hg Hb). unfold Apply.
  run p s; auto. apply follows_refl, Hb.
Qed.

Lemma advances_Apply2 {T U A} (p : Parser (Seq (Seq Empty T) U))
  (mapper : T -> U -> A) :
  advances p -> advances (Apply2 p mapper).
Proof.
  intros Hp s Hg Hb. specialize (Hp s Hg Hb). unfold Apply2.
  run p s; auto. apply follows_refl, Hb.
Qed.

Lemma advances_Apply3 {T U V A} (p : Parser (Seq (Seq (Seq Empty T) U) V))
  (mapper : T -> U -> V -> A) :
  advances p -> advances (Apply3 p mapper).
Proof.
  intros Hp s Hg Hb. specialize (Hp s Hg Hb). unfold Apply3.
  run p s; auto. apply follows_refl, Hb.
Qed.

Lemma advances_Loop_for {A T} (stepper : A -> Parser (Step A T))
  (initial : state) :
  (forall accum, advances (stepper accum)) ->
  go_state initial -> in_bounds initial ->
  forall fuel accum current, follows initial current ->
    match Loop_for fuel stepper initial accum current with
    | Returns (_, s') => follows initial s'
    | Panics => False
    | Spins => True
    end.
Proof.
  intros Hs Hg Hb.
  induction fuel as [|fuel IH]; intros accum current Hf; simpl; [exact I|].
  pose proof (Hs accum current (follows_go_state _ _ Hg Hf)
                (follows_in_bounds _ _ Hb Hf)) as Hp.
  run (stepper accum) current; auto; [|apply follows_refl, Hb].
  assert (Hf' : follows initial s') by (eapply follows_trans; eassumption).
  destruct (Done v); [exact Hf' | apply IH, Hf'].
Qed.

Lemma advances_Loop {A T} fuel (startAccum : A)
  (stepper : A -> Parser (Step A T)) :
  (forall accum, advances (stepper accum)) ->
  advances (Loop fuel startAccum stepper).
Proof.
  intros Hs s Hg Hb. unfold Loop.
  apply advances_Loop_for; auto. apply follows_refl, Hb.
Qed.

Lemma advances_ConsumeSome fuel condition :
  advances (ConsumeSome fuel condition).
Proof.
  unfold ConsumeSome, StartSkipping.
  apply advances_AppendSkipping;
    [apply advances_Map, advances_ConsumeIf | apply advances_ConsumeWhile].
Qed.

(** A parser built from the package never panics on a cursor within bounds,
    and the cursor it returns is a later cursor on the same input. *)
Create HintDb cursor.

#[local] Hint Resolve advances_Succeed advances_Fail advances_Map
  advances_AndThen advances_OneOf advances_ConsumeIf advances_ConsumeWhile
  advances_ConsumeSome advances_Exactly advances_GetString
  advances_AppendKeeping advances_AppendSkipping advances_Apply
  advances_Apply2 advances_Apply3 advances_Loop : cursor.

Lemma Built_advances {T} (p : Parser T) : Built p -> advances p.
Proof.
  induction 1; try unfold StartKeeping, StartSkipping; auto with cursor.
Qed.

(** ** The two loops *)

Lemma remaining_in_bounds (s : state) (rem : string) :
  remaining s = Returns rem -> in_bounds s.
Proof.
  unfold remaining, slice_from, in_bounds. intros H.
  apply slice_inv in H. lia.
Qed.

Lemma nextRune_in_bounds (s : state) (r : rune) (s' : state) :
  nextRune s = Returns (r, s') -> in_bounds s.
Proof.
  unfold nextRune. destruct (remaining s) as [rem| |] eqn:Er; try discriminate.
  intros _. eapply remaining_in_bounds, Er.
Qed.

(** At the end of the input the decoder reports [RuneError] and no width, so
    an iteration of [ConsumeWhile] whose condition accepts [RuneError] leaves
    the cursor where it is: the loop never exits. *)
Lemma ConsumeWhile_for_at_end (condition : rune -> bool) (s : state) :
  go_state s -> offset s = len (data s) ->
  condition utf8.RuneError = true ->
  forall fuel, ConsumeWhile_for fuel condition s = Spins.
Proof.
  intros Hg He Hc.
  assert (Hb : in_bounds s)
    by (unfold in_bounds; pose proof (len_nonneg (data s)); lia).
  destruct (nextRune_returns s Hg Hb) as (r & s' & Hn & _ & Hend & _).
  destruct (Hend He) as [-> ->].
  induction fuel as [|fuel IH]; simpl; [reflexivity|].
  rewrite Hn. simpl. rewrite Hc. simpl. exact IH.
Qed.

(** On a cursor whose next rune fails the condition the loop exits in its
    first iteration, with the cursor it was given. *)
Lemma ConsumeWhile_stops_at_once (condition : rune -> bool) (s : state) :
  forall r next fuel,
    nextRune s = Returns (r, next) -> condition r = false ->
    ConsumeWhile (S fuel) condition s = Returns (Val MkEmpty, s).
Proof.
  intros r next fuel Hn Hc. unfold ConsumeWhile. simpl.
  rewrite Hn. simpl. rewrite Hc. reflexivity.
Qed.

(** More fuel does not change what [ConsumeWhile] returns. *)
Lemma ConsumeWhile_for_more_fuel (condition : rune -> bool) :
  forall fuel s x,
    ConsumeWhile_for fuel condition s = Returns x ->
    forall fuel', (fuel <= fuel')%nat ->
      ConsumeWhile_for fuel' condition s = Returns x.
Proof.
  induction fuel as [|fuel IH]; intros s x H fuel' Hle; [discriminate|].
  destruct fuel' as [|fuel']; [lia|]. simpl in *.
  destruct (nextRune s) as [[r s']| |]; simpl in *; try discriminate.
  destruct (condition r); simpl in *; [|exact H].
  apply IH with (1 := H). lia.
Qed.

(** When the condition rejects [RuneError], [ConsumeWhile] returns within as
    many iterations as there are bytes left, plus one. *)
Lemma ConsumeWhile_for_returns (condition : rune -> bool) :
  condition utf8.RuneError = false ->
  forall fuel s, go_state s -> in_bounds s ->
    len (data s) - offset s < Z.of_nat fuel ->
    exists s', ConsumeWhile_for fuel condition s = Returns (Val MkEmpty, s').
Proof.
  intros Hc. induction fuel as [|fuel IH]; intros s Hg Hb Hlt.
  - unfold in_bounds in Hb. lia.
  - simpl.
    destruct (nextRune_returns s Hg Hb) as (r & s' & -> & Hf & Hend & Hadv).
    simpl. destruct (condition r) eqn:Er; simpl; [|eauto].
    assert (Hnot : offset s <> len (data s)).
    { intros He. destruct (Hend He) as [-> _]. congruence. }
    apply IH.
    + eapply follows_go_state; eassumption.
    + eapply follows_in_bounds; eassumption.
    + destruct Hf as [Hd Ho]. rewrite Hd.
      unfold in_bounds in Hb. lia.
Qed.

Lemma Loop_for_reaches {A T} (stepper : A -> Parser (Step A T))
  (startAccum : A) (initial : state) :
  forall n accum current,
    LoopReaches stepper startAccum initial n accum current ->
    forall fuel,
      Loop_for (n + fuel) stepper initial startAccum initial
      = Loop_for fuel stepper initial accum current.
Proof.
  induction 1 as [|n accum current step next _ IH Hstep Hdone]; intros fuel.
  - reflexivity.
  - replace (S n + fuel)%nat with (n + S fuel)%nat by lia.
    rewrite IH. simpl. rewrite Hstep. simpl. rewrite Hdone. reflexivity.
Qed.

Lemma Loop_for_failure_state {A T} (stepper : A -> Parser (Step A T))
  (initial : state) :
  forall fuel accum current err st,
    Loop_for fuel stepper initial accum current = Returns (Error err, st) ->
    st = initial.
Proof.
  induction fuel as [|fuel IH]; intros accum current err st H; [discriminate|].
  simpl in H.
  destruct (stepper accum current) as [[[step|e] next]| |]; simpl in H;
    try discriminate.
  - destruct (Done step); [discriminate | eapply IH, H].
  - congruence.
Qed.

Lemma OneOf_range_all_fail {T} (pre rest : list (Parser T)) (s : state) :
  all_fail pre s ->
  forall err, exists err',
    OneOf_range (pre ++ rest) s err = OneOf_range rest s err'.
Proof.
  induction pre as [|p pre IH]; intros Hall err; simpl.
  - exists err. reflexivity.
  - destruct (Hall p (or_introl eq_refl)) as (e & st & ->). simpl.
    apply IH. intros q Hq. apply Hall. right. exact Hq.
Qed.

(** ** The driver *)

(** C4, as the code has it.  [Parse p s] runs [p] on the cursor at offset 0
    of [s].  A failure of [p] is returned as it is.  After a success, the
    offset of the final cursor is compared with the length of the data of
    that final cursor: strictly less gives [ErrUnconsumedInput], anything
    else gives the value of [p] and no error.  For a parser built from the
    package the data of the final cursor is [s], and the comparison is with
    the length of [s]. *)
Theorem Parse_contract_on_final_data :
  forall (T : Type) (p : Parser T) (s : string),
    (forall err st,
        p {| data := s; offset := 0 |} = Returns (Error err, st) ->
        Parse p s = Returns (Error err)) /\
    (forall v final,
        p {| data := s; offset := 0 |} = Returns (Val v, final) ->
        offset final < len (data final) ->
        Parse p s = Returns (Error ErrUnconsumedInput)) /\
    (forall v final,
        p {| data := s; offset := 0 |} = Returns (Val v, final) ->
        len (data final) <= offset final ->
        Parse p s = Returns (Val v)) /\
    (Built p -> len s <= max_int ->
     forall v final,
       p {| data := s; offset := 0 |} = Returns (Val v, final) ->
       data final = s /\
       (offset final < len s ->
        Parse p s = Returns (Error ErrUnconsumedInput)) /\
       (len s <= offset final -> Parse p s = Returns (Val v))).
Proof.
  intros T p s. unfold Parse.
  split; [|split; [|split]].
  - intros err st ->. reflexivity.
  - intros v final -> Hlt. simpl.
    apply Z.ltb_lt in Hlt. rewrite Hlt. reflexivity.
  - intros v final -> Hge. simpl.
    apply Z.ltb_ge in Hge. rewrite Hge. reflexivity.
  - intros Hp Hlen v final Hrun.
    assert (Hg : go_state {| data := s; offset := 0 |}) by exact Hlen.
    assert (Hb : in_bounds {| data := s; offset := 0 |})
      by (unfold in_bounds; simpl; pose proof (len_nonneg s); lia).
    pose proof (Built_advances p Hp _ Hg Hb) as Hf.
    rewrite Hrun in *. destruct Hf as [Hd _]. simpl in *.
    split; [exact Hd|]. rewrite Hd. split.
    + intros Hlt. apply Z.ltb_lt in Hlt. rewrite Hlt. reflexivity.
    + intros Hge. apply Z.ltb_ge in Hge. rewrite Hge. reflexivity.
Qed.

Lemma Parse_contract_on_final_data_witness :
  Parse (Exactly "a") "b" = Returns (Error ErrNoMatch) /\
  Parse (Exactly "a") "ab" = Returns (Error ErrUnconsumedInput) /\
  Parse (Exactly "a") "a" = Returns (Val MkEmpty) /\
  (Built (Exactly "a") /\ len "ab" <= max_int /\
   data {| data := "ab"; offset := 1 |} = "ab").
Proof.
  split; [|split; [|split]].
  - apply (proj1 (Parse_contract_on_final_data Empty (Exactly "a") "b")
             ErrNoMatch {| data := "b"; offset := 0 |}).
    reflexivity.
  - apply (proj1 (proj2 (Parse_contract_on_final_data Empty (Exactly "a") "ab"))
             MkEmpty {| data := "ab"; offset := 1 |});
      reflexivity.
  - apply (proj1 (proj2 (proj2
             (Parse_contract_on_final_data Empty (Exactly "a") "a")))
             MkEmpty {| data := "a"; offset := 1 |});
      [reflexivity | vm_compute; discriminate].
  - assert (Hlen : len "ab" <= max_int) by (vm_compute; discriminate).
    split; [apply Built_Exactly|]. split; [exact Hlen|].
    apply (proj2 (proj2 (proj2
             (Parse_contract_on_final_data Empty (Exactly "a") "ab")))
             (Built_Exactly "a") Hlen MkEmpty {| data := "ab"; offset := 1 |}).
    reflexivity.
Defined.

(** C4 as it is worded, with the length of [s] for every parser, fails: a
    parser function that succeeds at offset 0 with a cursor on the empty
    string has a final offset below the length of the input "abc", and
    [Parse] returns its value. *)
Lemma Parse_contract_counterexample :
  ~ (forall (p : Parser Z) (s : string) (v : Z) (final : state),
        p {| data := s; offset := 0 |} = Returns (Val v, final) ->
        offset final < len s ->
        Parse p s = Returns (Error ErrUnconsumedInput)).
Proof.
  intros H.
  specialize (H (fun _ => Returns (Val 1, {| data := ""; offset := 0 |}))
                "abc" 1 {| data := ""; offset := 0 |} eq_refl eq_refl).
  vm_compute in H. discriminate H.
Qed.

(** ** Alternatives *)

(** C5. [OneOf] runs the listed parsers in order, each on the cursor [s] it
    was entered with.  With no parser it fails with [ErrNoMatch] at [s]; when
    the parsers before [p] all fail at [s] and [p] succeeds, the value and
    cursor of [p] are returned whatever comes after [p]; when every parser
    fails, the error is the one of the last parser and the cursor is [s]. *)
Theorem OneOf_first_success_or_last_failure :
  forall (T : Type) (s : state),
    @OneOf T [] s = Returns (Error ErrNoMatch, s) /\
    (forall (pre : list (Parser T)) p post v next,
        all_fail pre s -> p s = Returns (Val v, next) ->
        OneOf (pre ++ p :: post) s = Returns (Val v, next)) /\
    (forall (pre : list (Parser T)) p err st,
        all_fail pre s -> p s = Returns (Error err, st) ->
        OneOf (pre ++ [p]) s = Returns (Error err, s)).
Proof.
  intros T s. unfold OneOf. repeat split.
  - intros pre p post v next Hall Hp.
    destruct (OneOf_range_all_fail pre (p :: post) s Hall ErrNoMatch)
      as [err' ->].
    simpl. rewrite Hp. reflexivity.
  - intros pre p err st Hall Hp.
    destruct (OneOf_range_all_fail pre [p] s Hall ErrNoMatch) as [err' ->].
    simpl. rewrite Hp. reflexivity.
Qed.

Lemma OneOf_first_success_or_last_failure_witness :
  OneOf [Map (Exactly "x") (fun _ => 0); Map (Exactly "a") (fun _ => 1);
         Map (Exactly "ab") (fun _ => 2)]
    {| data := "abc"; offset := 0 |}
  = Returns (Val 1, {| data := "abc"; offset := 1 |}) /\
  OneOf [Exactly "x"; Succeed MkEmpty; @Fail Empty]
    {| data := "abc"; offset := 0 |}
  = Returns (Val MkEmpty, {| data := "abc"; offset := 0 |}) /\
  OneOf [Exactly "x"; Map (@Fail Empty) (fun e => e);
         (fun st => Returns (Error (ErrOther "late"), st))]
    {| data := "abc"; offset := 0 |}
  = Returns (Error (ErrOther "late"), {| data := "abc"; offset := 0 |}).
Proof.
  pose (s := {| data := "abc"; offset := 0 |}).
  assert (Hx : all_fail [Exactly "x"] s).
  { intros p [<-|[]]. exists ErrNoMatch, s. reflexivity. }
  split; [|split].
  - apply (proj1 (proj2 (OneOf_first_success_or_last_failure Z s))
             [Map (Exactly "x") (fun _ => 0)] (Map (Exactly "a") (fun _ => 1))
             [Map (Exactly "ab") (fun _ => 2)]);
      [|reflexivity].
    intros p [<-|[]]. exists ErrNoMatch, s. reflexivity.
  - apply (proj1 (proj2 (OneOf_first_success_or_last_failure Empty s))
             [Exactly "x"] (Succeed MkEmpty) [@Fail Empty]);
      [exact Hx | reflexivity].
  - apply (proj2 (proj2 (OneOf_first_success_or_last_failure Empty s))
             [Exactly "x"; Map (@Fail Empty) (fun e => e)]
             (fun st => Returns (Error (ErrOther "late"), st))
             (ErrOther "late") s);
      [|reflexivity].
    intros p [<-|[<-|[]]]; exists ErrNoMatch, s; reflexivity.
Defined.

(** ** Iteration *)

(** C6. Let the loop entered at [initial] begin its iteration number [n]
    with accumulator [accum] at cursor [current].  If the parser the stepper
    makes for [accum] fails there, [Loop] fails with that error and returns
    the cursor [initial]; if it succeeds with [Done] set, [Loop] returns the
    [Value] of that step with the cursor that step returned.  Whenever
    [Loop] fails at all, the cursor it returns is [initial]. *)
Theorem Loop_failure_restores_and_Done_returns :
  forall (A T : Type) (startAccum : A) (stepper : A -> Parser (Step A T))
         (initial : state) (n : nat) (accum : A) (current : state),
    LoopReaches stepper startAccum initial n accum current ->
    (forall err st,
        stepper accum current = Returns (Error err, st) ->
        forall fuel, (n < fuel)%nat ->
          Loop fuel startAccum stepper initial = Returns (Error err, initial)) /\
    (forall step next,
        stepper accum current = Returns (Val step, next) ->
        Done step = true ->
        forall fuel, (n < fuel)%nat ->
          Loop fuel startAccum stepper initial
          = Returns (Val (parser.Value step), next)) /\
    (forall fuel err st,
        Loop fuel startAccum stepper initial = Returns (Error err, st) ->
        st = initial).
Proof.
  intros A T startAccum stepper initial n accum current Hreach.
  pose proof (Loop_for_reaches stepper startAccum initial n accum current Hreach)
    as Hskip.
  unfold Loop. repeat split.
  - intros err st Hstep fuel Hlt.
    replace fuel with (n + S (fuel - n - 1))%nat by lia.
    rewrite Hskip. simpl. rewrite Hstep. reflexivity.
  - intros step next Hstep Hdone fuel Hlt.
    replace fuel with (n + S (fuel - n - 1))%nat by lia.
    rewrite Hskip. simpl. rewrite Hstep. simpl. rewrite Hdone. reflexivity.
  - intros fuel err st H. eapply Loop_for_failure_state, H.
Qed.

Lemma Loop_failure_restores_and_Done_returns_witness :
  Loop 3 0 count_a {| data := "aab"; offset := 0 |}
  = Returns (Error ErrNoMatch, {| data := "aab"; offset := 0 |}) /\
  Loop 3 0 count_a {| data := "aa;"; offset := 0 |}
  = Returns (Val 2, {| data := "aa;"; offset := 3 |}).
Proof.
  assert (Hreach : forall d, d = "aab" \/ d = "aa;" ->
    LoopReaches count_a 0 {| data := d; offset := 0 |} 2 2
      {| data := d; offset := 2 |}).
  { intros d Hd.
    apply (LoopReaches_continue count_a 0 _ 1 1
             {| data := d; offset := 1 |}
             {| Done := false; Accum := 2; parser.Value := 0 |});
      [|destruct Hd as [->| ->]; reflexivity|reflexivity].
    apply (LoopReaches_continue count_a 0 _ 0 0
             {| data := d; offset := 0 |}
             {| Done := false; Accum := 1; parser.Value := 0 |});
      [|destruct Hd as [->| ->]; reflexivity|reflexivity].
    apply LoopReaches_entry. }
  split.
  - apply (proj1 (Loop_failure_restores_and_Done_returns Z Z 0 count_a
                    _ 2%nat 2 _ (Hreach "aab" (or_introl eq_refl)))
             ErrNoMatch {| data := "aab"; offset := 2 |});
      [reflexivity | apply le_n].
  - apply (proj1 (proj2 (Loop_failure_restores_and_Done_returns Z Z 0 count_a
                    _ 2%nat 2 _ (Hreach "aa;" (or_intror eq_refl))))
             {| Done := true; Accum := 0; parser.Value := 2 |}
             {| data := "aa;"; offset := 3 |});
      [reflexivity | reflexivity | apply le_n].
Defined.

(** ** Capture *)

(** C8, as the code has it.  When [p] succeeds from a cursor [initial]
    within bounds and leaves a cursor [next] on the same input, not before
    [initial] and not past the end, [GetString p] succeeds with the bytes of
    the input from the offset of [initial] up to the offset of [next], and
    returns [next].  Every parser built from the package leaves such a
    cursor, so for these the success of [p] on a cursor within bounds is
    enough.  When [p] fails, whatever [p] and the cursor are, [GetString p]
    fails with the same error and returns [initial]. *)
Theorem GetString_captures_span_within_bounds :
  forall (T : Type) (p : Parser T) (initial : state),
    (forall v next,
        p initial = Returns (Val v, next) ->
        in_bounds initial -> follows initial next ->
        GetString p initial
        = Returns (Val (substring (Z.to_nat (offset initial))
                                  (Z.to_nat (offset next - offset initial))
                                  (data initial)),
                   next)) /\
    (Built p -> go_state initial -> in_bounds initial ->
     forall v next,
       p initial = Returns (Val v, next) ->
       GetString p initial
       = Returns (Val (substring (Z.to_nat (offset initial))
                                 (Z.to_nat (offset next - offset initial))
                                 (data initial)),
                  next)) /\
    (forall err st,
        p initial = Returns (Error err, st) ->
        GetString p initial = Returns (Error err, initial)).
Proof.
  intros T p initial.
  assert (Hspan : forall v next,
            p initial = Returns (Val v, next) ->
            in_bounds initial -> follows initial next ->
            GetString p initial
            = Returns (Val (substring (Z.to_nat (offset initial))
                                      (Z.to_nat (offset next - offset initial))
                                      (data initial)),
                       next)).
  { intros v next Hrun Hb [Hd Ho]. unfold GetString. rewrite Hrun. simpl.
    rewrite slice_returns by (unfold in_bounds in Hb; lia).
    simpl. rewrite Hd. reflexivity. }
  split; [exact Hspan|]. split.
  - intros Hp Hg Hb v next Hrun. apply (Hspan v next Hrun Hb).
    pose proof (Built_advances p Hp initial Hg Hb) as Hf.
    rewrite Hrun in Hf. exact Hf.
  - intros err st Hrun. unfold GetString. rewrite Hrun. reflexivity.
Qed.

Lemma GetString_captures_span_within_bounds_witness :
  GetString (Exactly "bc") {| data := "abcd"; offset := 1 |}
  = Returns (Val "bc", {| data := "abcd"; offset := 3 |}) /\
  GetString (ConsumeWhile 4 example.isAlphaNum) {| data := "ab=1"; offset := 0 |}
  = Returns (Val "ab", {| data := "ab=1"; offset := 2 |}) /\
  GetString (Exactly "x") {| data := "abcd"; offset := 1 |}
  = Returns (Error ErrNoMatch, {| data := "abcd"; offset := 1 |}).
Proof.
  split; [|split].
  - apply (proj1 (GetString_captures_span_within_bounds Empty (Exactly "bc")
                    {| data := "abcd"; offset := 1 |})
             MkEmpty {| data := "abcd"; offset := 3 |}).
    + reflexivity.
    + unfold in_bounds. simpl. vm_compute. split; discriminate.
    + unfold follows. simpl. vm_compute.
      split; [reflexivity | split; discriminate].
  - apply (proj1 (proj2 (GetString_captures_span_within_bounds Empty
                    (ConsumeWhile 4 example.isAlphaNum)
                    {| data := "ab=1"; offset := 0 |}))
             (Built_ConsumeWhile 4 example.isAlphaNum)
             ltac:(unfold go_state; vm_compute; discriminate)
             ltac:(unfold in_bounds; vm_compute; split; discriminate)
             MkEmpty {| data := "ab=1"; offset := 2 |}).
    reflexivity.
  - apply (proj2 (proj2 (GetString_captures_span_within_bounds Empty
                    (Exactly "x") {| data := "abcd"; offset := 1 |}))
             ErrNoMatch {| data := "abcd"; offset := 1 |}).
    reflexivity.
Defined.

(** C8 as it is worded, for every parser and every state, fails: [Succeed]
    succeeds on a state whose offset lies past the end of its data, and the
    slice expression of [GetString] panics there; and on a state within
    bounds a parser function that succeeds with a cursor before the one it
    was given makes the slice expression panic as well. *)
Lemma GetString_captures_span_counterexample :
  ~ (forall (p : Parser Z) (initial : state) (v : Z) (next : state),
        p initial = Returns (Val v, next) ->
        exists sub, GetString p initial = Returns (Val sub, next)) /\
  ~ (forall (p : Parser Z) (initial : state) (v : Z) (next : state),
        in_bounds initial ->
        p initial = Returns (Val v, next) ->
        exists sub, GetString p initial = Returns (Val sub, next)).
Proof.
  split; intros H.
  - destruct (H (Succeed 1) {| data := "ab"; offset := 5 |} 1
                {| data := "ab"; offset := 5 |} eq_refl) as [sub Hsub].
    vm_compute in Hsub. discriminate Hsub.
  - destruct (H (fun st => Returns (Val 1, {| data := data st; offset := 0 |}))
                {| data := "abcd"; offset := 2 |} 1
                {| data := "abcd"; offset := 0 |}
                ltac:(unfold in_bounds; vm_compute; split; discriminate)
                eq_refl) as [sub Hsub].
    vm_compute in Hsub. discriminate Hsub.
Qed.

(** ** One or more *)

(** C2. [ConsumeSome condition] succeeds only by consuming: the cursor it
    returns on success is on the same input, strictly after the cursor it
    was given.  On a cursor whose next rune does not satisfy [condition] it
    fails with [ErrNoMatch] and returns that cursor. *)
Theorem ConsumeSome_consumes_or_fails_in_place :
  forall (fuel : nat) (condition : rune -> bool) (s : state),
    go_state s ->
    (forall v s',
        ConsumeSome fuel condition s = Returns (Val v, s') ->
        data s' = data s /\ offset s < offset s' <= len (data s)) /\
    (forall r next,
        nextRune s = Returns (r, next) -> condition r = false ->
        ConsumeSome fuel condition s = Returns (Error ErrNoMatch, s)).
Proof.
  intros fuel condition s Hg.
  unfold ConsumeSome, AppendSkipping, StartSkipping, Map, ConsumeIf,
    ConsumeWhile.
  split.
  - intros v s'.
    destruct (nextRune s) as [[r s1]| |] eqn:En; simpl; try discriminate.
    pose proof (nextRune_in_bounds s r s1 En) as Hb.
    destruct (nextRune_returns s Hg Hb) as (r' & s1' & En' & Hf & Hend & Hadv).
    rewrite En in En'. injection En' as <- <-.
    destruct (condition r) eqn:Ec; simpl; [|discriminate].
    destruct (Z.eq_dec (offset s) (len (data s))) as [He|Hne].
    + destruct (Hend He) as [-> ->].
      rewrite ConsumeWhile_for_at_end by assumption. discriminate.
    + pose proof (advances_ConsumeWhile fuel condition s1
                    (follows_go_state _ _ Hg Hf)
                    (follows_in_bounds _ _ Hb Hf)) as Hw.
      unfold ConsumeWhile in Hw.
      destruct (ConsumeWhile_for fuel condition s1) as [[[e|err] s2]| |];
        simpl; try discriminate.
      intros [= <- <-].
      destruct Hf as [Hd1 Ho1]. destruct Hw as [Hd2 Ho2].
      unfold in_bounds in Hb.
      assert (offset s < offset s1) by (apply Hadv; lia).
      split; [congruence|]. rewrite <- Hd1, <- Hd2. lia.
  - intros r next -> Hc. simpl. rewrite Hc. reflexivity.
Qed.

Lemma ConsumeSome_consumes_or_fails_in_place_witness :
  go_state {| data := "42]"; offset := 0 |} /\
  (data {| data := "42]"; offset := 2 |} = data {| data := "42]"; offset := 0 |}
   /\ offset {| data := "42]"; offset := 0 |}
      < offset {| data := "42]"; offset := 2 |}
      <= len (data {| data := "42]"; offset := 0 |})) /\
  ConsumeSome 3 example.isDecimalDigit {| data := "]42"; offset := 0 |}
  = Returns (Error ErrNoMatch, {| data := "]42"; offset := 0 |}).
Proof.
  assert (Hg : forall d, String.length d = 3%nat ->
                         go_state {| data := d; offset := 0 |}).
  { intros d Hd. unfold go_state, len. simpl. rewrite Hd.
    vm_compute. discriminate. }
  split; [apply Hg; reflexivity|]. split.
  - apply (proj1 (ConsumeSome_consumes_or_fails_in_place 3
                    example.isDecimalDigit {| data := "42]"; offset := 0 |}
                    (Hg "42]" eq_refl))
             MkEmpty {| data := "42]"; offset := 2 |}).
    reflexivity.
  - apply (proj2 (ConsumeSome_consumes_or_fails_in_place 3
                    example.isDecimalDigit {| data := "]42"; offset := 0 |}
                    (Hg "]42" eq_refl))
             (example.chr "]") {| data := "]42"; offset := 1 |});
      reflexivity.
Defined.

(** ** End of input *)

(** C10. On a cursor at the end of the input nothing remains, the decoder
    reports [RuneError] with width 0 and [nextRune] returns [RuneError] with
    the cursor it was given; so [ConsumeIf condition], for a condition that
    holds of [RuneError], succeeds there and returns the cursor unchanged. *)
Theorem ConsumeIf_succeeds_at_end_of_input :
  forall s : state,
    go_state s -> offset s = len (data s) ->
    remaining s = Returns "" /\
    utf8.DecodeRuneInString "" = (utf8.RuneError, 0) /\
    nextRune s = Returns (utf8.RuneError, s) /\
    (forall condition : rune -> bool,
        condition utf8.RuneError = true ->
        ConsumeIf condition s = Returns (Val MkEmpty, s)).
Proof.
  intros s Hg He.
  assert (Hb : in_bounds s)
    by (unfold in_bounds; pose proof (len_nonneg (data s)); lia).
  destruct (remaining_returns s Hb) as (rem & Hrem & Hlen).
  assert (rem = "") as -> by (apply len_zero; lia).
  destruct (nextRune_returns s Hg Hb) as (r & s' & Hn & _ & Hend & _).
  destruct (Hend He) as [-> ->].
  repeat split; try assumption.
  intros condition Hc. unfold ConsumeIf. rewrite Hn. simpl. rewrite Hc.
  reflexivity.
Qed.

Lemma ConsumeIf_succeeds_at_end_of_input_witness :
  nextRune {| data := "ab"; offset := 2 |}
  = Returns (utf8.RuneError, {| data := "ab"; offset := 2 |}) /\
  ConsumeIf (fun r => negb (r =? example.chr ",")) {| data := "ab"; offset := 2 |}
  = Returns (Val MkEmpty, {| data := "ab"; offset := 2 |}).
Proof.
  assert (Hg : go_state {| data := "ab"; offset := 2 |})
    by (unfold go_state; vm_compute; discriminate).
  pose proof (ConsumeIf_succeeds_at_end_of_input
                {| data := "ab"; offset := 2 |} Hg eq_refl)
    as (_ & _ & Hn & Hc).
  split; [exact Hn|]. apply Hc. reflexivity.
Defined.

(** ** The cursor invariant *)

Ltac built :=
  repeat first
    [ apply Built_Succeed | apply Built_Fail | apply Built_Exactly
    | apply Built_ConsumeIf | apply Built_ConsumeWhile
    | apply Built_ConsumeSome
    | apply Built_Map | apply Built_GetString
    | apply Built_StartKeeping | apply Built_StartSkipping
    | apply Built_AppendKeeping | apply Built_AppendSkipping
    | apply Built_Apply | apply Built_Apply2 | apply Built_Apply3
    | apply Built_AndThen; [|intros ?]
    | apply Built_Loop; intros ?
    | apply Built_OneOf;
      let p := fresh "p" in let H := fresh "H" in
      intros p H; simpl in H;
      repeat (destruct H as [<-|H]; [|try contradiction]) ].

Lemma intParser_handler_Built (digits : string) :
  Built (example.intParser_handler digits).
Proof.
  unfold example.intParser_handler.
  destruct (_ && _); [built|]. destruct (strconv.Atoi digits); built.
Qed.

(** The configuration grammar is built from the package. *)
Lemma NewConfigParser_Built (fuel : nat) :
  Built (example.ConfigurationParser (example.NewConfigParser fuel)).
Proof.
  cbv [example.NewConfigParser example.ConfigurationParser].
  built.
  unfold example.bindingsParser_stepper.
  destruct accum; built; apply intParser_handler_Built.
Qed.

(** C9. A parser built from the package's creation and combination
    functions, run on a cursor with [0 <= offset <= len data], returns on
    success as on failure a cursor with [0 <= offset <= len data]. *)
Theorem Built_keeps_offset_in_bounds :
  forall (T : Type) (p : Parser T),
    Built p ->
    forall s : state,
      go_state s -> 0 <= offset s <= len (data s) ->
      forall r s', p s = Returns (r, s') -> 0 <= offset s' <= len (data s').
Proof.
  intros T p Hp s Hg Hb r s' Hrun.
  pose proof (Built_advances p Hp s Hg Hb) as H. rewrite Hrun in H.
  exact (follows_in_bounds s s' Hb H).
Qed.

Lemma Built_keeps_offset_in_bounds_witness :
  0 <= offset {| data := "[=1]"; offset := 1 |}
    <= len (data {| data := "[=1]"; offset := 1 |}).
Proof.
  apply (Built_keeps_offset_in_bounds _
           (AndThen (Exactly "[")
              (fun _ => example.bindingsParser (example.NewConfigParser 6))))
    with (s := {| data := "[=1]"; offset := 0 |})
         (r := Error ErrNoMatch).
  - cbv [example.NewConfigParser example.bindingsParser]. built.
    unfold example.bindingsParser_stepper.
    destruct accum; built; apply intParser_handler_Built.
  - unfold go_state. vm_compute. discriminate.
  - vm_compute. split; discriminate.
  - vm_compute. reflexivity.
Defined.

(** ** Where the code departs from its description *)

(** C1. What the code returns on "[flag=true, count=42]", with any clock of
    at least 6: a successful parse whose slice holds the binding of "count"
    first and the binding of "flag" second, the reverse of the order in the
    input. *)
Theorem ConfigurationParser_returns_bindings_reversed :
  forall extra : nat,
    Parse (example.ConfigurationParser (example.NewConfigParser (6 + extra)))
      "[flag=true, count=42]"
    = Returns (Val [ {| example.Name := "count";
                        example.Value := example.BindingInt 42 |};
                     {| example.Name := "flag";
                        example.Value := example.BindingBool true |} ]).
Proof. intros extra. vm_compute. reflexivity. Qed.

(** The other end-to-end inputs of the grammar, with a clock of 8. *)
Example ConfigurationParser_scenarios :
  let run := Parse (example.ConfigurationParser (example.NewConfigParser 8)) in
  run "[a=1]"
  = Returns (Val [ {| example.Name := "a";
                      example.Value := example.BindingInt 1 |} ]) /\
  run "[x=01]" = Returns (Error ErrNoMatch) /\
  run "" = Returns (Error ErrNoMatch) /\
  run "[x=1] " = Returns (Error ErrUnconsumedInput).
Proof. vm_compute. repeat split. Qed.

(** C3. [ConsumeWhile] with the condition "any rune but ']'" on the input
    "abc": after the three letters the cursor is at the end of the input,
    where every further iteration decodes [RuneError] with width 0 and
    accepts it; the call returns for no amount of fuel. *)
Theorem ConsumeWhile_does_not_return_at_end_of_input :
  forall fuel : nat,
    Parse (ConsumeWhile fuel (fun r => negb (r =? example.chr "]"))) "abc"
    = Spins.
Proof.
  intros fuel. unfold Parse, ConsumeWhile.
  assert (Hend : forall f,
            ConsumeWhile_for f (fun r => negb (r =? example.chr "]"))
              {| data := "abc"; offset := 3 |} = Spins).
  { apply ConsumeWhile_for_at_end.
    - unfold go_state. vm_compute. discriminate.
    - reflexivity.
    - reflexivity. }
  destruct fuel as [|[|[|fuel]]]; try reflexivity.
  change (ConsumeWhile_for (S (S (S fuel)))
            (fun r => negb (r =? example.chr "]"))
            {| data := "abc"; offset := 0 |})
    with (ConsumeWhile_for fuel (fun r => negb (r =? example.chr "]"))
            {| data := "abc"; offset := 3 |}).
  rewrite Hend. reflexivity.
Qed.

(** C7. [AndThen] of "a" and then "b" on the input "ac": the first parser
    succeeds and moves the cursor to offset 1, the second fails there, and
    [AndThen] returns the failure with the cursor at offset 1, not the cursor
    at offset 0 it was entered with; [AppendSkipping] of the same two parsers
    returns the cursor at offset 0. *)
Theorem AndThen_failure_returns_advanced_cursor :
  AndThen (Exactly "a") (fun _ => Exactly "b") {| data := "ac"; offset := 0 |}
  = Returns (Error ErrNoMatch, {| data := "ac"; offset := 1 |}) /\
  AppendSkipping (Exactly "a") (Exactly "b") {| data := "ac"; offset := 0 |}
  = Returns (Error ErrNoMatch, {| data := "ac"; offset := 0 |}).
Proof. split; reflexivity. Qed.

(** * Further properties of the package *)

(** ** No panic, no step back *)

(** X1. A parser built from the package, run on a cursor within bounds,
    never panics, and whatever it returns (success or failure) is a cursor on
    the same input whose offset is not smaller than the one it was given. *)
Theorem Built_never_panics_nor_steps_back :
  forall (T : Type) (p : Parser T),
    Built p ->
    forall s : state,
      go_state s -> in_bounds s ->
      p s <> Panics /\
      (forall r s', p s = Returns (r, s') ->
                    data s' = data s /\ offset s <= offset s').
Proof.
  intros T p Hp s Hg Hb.
  pose proof (Built_advances p Hp s Hg Hb) as H.
  destruct (p s) as [[r s']| |]; [|contradiction|].
  - split; [discriminate|]. intros r0 s0 [= <- <-].
    destruct H as [Hd Ho]. split; [exact Hd | lia].
  - split; [discriminate | intros r s' Hx; discriminate].
Qed.

Lemma Built_never_panics_nor_steps_back_witness :
  go_state {| data := "[a=1 b]"; offset := 0 |} /\
  in_bounds {| data := "[a=1 b]"; offset := 0 |} /\
  example.ConfigurationParser (example.NewConfigParser 4)
    {| data := "[a=1 b]"; offset := 0 |} <> Panics.
Proof.
  assert (Hg : go_state {| data := "[a=1 b]"; offset := 0 |})
    by (unfold go_state; vm_compute; discriminate).
  assert (Hb : in_bounds {| data := "[a=1 b]"; offset := 0 |})
    by (unfold in_bounds; vm_compute; split; discriminate).
  split; [exact Hg|]. split; [exact Hb|].
  exact (proj1 (Built_never_panics_nor_steps_back _ _
                  (NewConfigParser_Built 4) _ Hg Hb)).
Defined.

(** ** Failure hands back the entry cursor *)

Section Restoring.

Variables T U V A : Type.
Variable p : Parser T.
Variable q : Parser U.
Variable ps : list (Parser T).
Variable p1 : Parser (Seq Empty T).
Variable p2 : Parser (Seq (Seq Empty T) U).
Variable p3 : Parser (Seq (Seq (Seq Empty T) U) V).

Lemma OneOf_range_restores (parsers : list (Parser T)) :
  forall s err0 err st,
    OneOf_range parsers s err0 = Returns (Error err, st) -> st = s.
Proof.
  induction parsers as [|p0 rest IH]; intros s err0 err st; simpl.
  - congruence.
  - destruct (p0 s) as [[[v|e] s']| |]; simpl; try discriminate.
    apply IH.
Qed.

Lemma ConsumeWhile_for_succeeds fuel condition :
  forall s r s',
    ConsumeWhile_for fuel condition s = Returns (r, s') -> r = Val MkEmpty.
Proof.
  induction fuel as [|fuel IH]; intros s r s'; simpl; [discriminate|].
  destruct (nextRune s) as [[r0 s0]| |]; simpl; try discriminate.
  destruct (condition r0); simpl; [apply IH | congruence].
Qed.

(** X2. Whatever the parsers they are given do, [Map], [OneOf],
    [GetString], [StartKeeping], [StartSkipping], [AppendKeeping],
    [AppendSkipping], [Apply], [Apply2] and [Apply3], and the primitives
    [ConsumeIf], [ConsumeWhile], [ConsumeSome] and [Exactly], return on
    failure the cursor they were entered with. *)
Theorem failure_returns_entry_cursor :
  forall (mapper : T -> A) (mapper2 : T -> U -> A) (mapper3 : T -> U -> V -> A)
         (fuel : nat) (condition : rune -> bool) (token : string),
    restores (Map p mapper) /\ restores (OneOf ps) /\
    restores (GetString p) /\
    restores (StartKeeping p) /\ restores (StartSkipping p) /\
    restores (AppendKeeping p q) /\ restores (AppendSkipping p q) /\
    restores (Apply p1 mapper) /\ restores (Apply2 p2 mapper2) /\
    restores (Apply3 p3 mapper3) /\
    restores (ConsumeIf condition) /\ restores (ConsumeWhile fuel condition) /\
    restores (ConsumeSome fuel condition) /\ restores (Exactly token).
Proof.
  intros mapper mapper2 mapper3 fuel condition token.
  assert (HM : forall X Y (p0 : Parser X) (f : X -> Y), restores (Map p0 f)).
  { intros X Y p0 f s err st. unfold Map.
    destruct (p0 s) as [[[v|e] s']| |]; simpl; congruence. }
  assert (HS : forall X Y (a : Parser X) (b : Parser Y),
             restores (AppendSkipping a b)).
  { intros X Y a b s err st. unfold AppendSkipping.
    destruct (a s) as [[[v|e] s']| |]; simpl; try congruence.
    destruct (b s') as [[[v'|e'] s'']| |]; simpl; congruence. }
  repeat split.
  - apply HM.
  - intros s err st. unfold OneOf. apply OneOf_range_restores.
  - intros s err st. unfold GetString.
    destruct (p s) as [[[v|e] s']| |]; simpl; try congruence.
    destruct (slice _ _ _); simpl; congruence.
  - apply HM.
  - apply HM.
  - intros s err st. unfold AppendKeeping.
    destruct (p s) as [[[v|e] s']| |]; simpl; try congruence.
    destruct (q s') as [[[v'|e'] s'']| |]; simpl; congruence.
  - apply HS.
  - intros s err st. unfold Apply.
    destruct (p1 s) as [[[v|e] s']| |]; simpl; congruence.
  - intros s err st. unfold Apply2.
    destruct (p2 s) as [[[v|e] s']| |]; simpl; congruence.
  - intros s err st. unfold Apply3.
    destruct (p3 s) as [[[v|e] s']| |]; simpl; congruence.
  - intros s err st. unfold ConsumeIf.
    destruct (nextRune s) as [[r s']| |]; simpl; try congruence.
    destruct (condition r); simpl; congruence.
  - intros s err st. unfold ConsumeWhile. intros H.
    apply ConsumeWhile_for_succeeds in H. discriminate.
  - unfold ConsumeSome. apply HS.
  - intros s err st. unfold Exactly.
    destruct (remaining s); simpl; try congruence.
    destruct (strings.HasPrefix _ _); congruence.
Qed.

End Restoring.

(** ** One or more is one, then zero or more *)

(** X3. [ConsumeSome condition] returns on every cursor exactly what
    [AndThen] of [ConsumeIf condition] and [ConsumeWhile condition] returns,
    the failure cursor included. *)
Theorem ConsumeSome_is_ConsumeIf_then_ConsumeWhile :
  forall (fuel : nat) (condition : rune -> bool) (s : state),
    ConsumeSome fuel condition s
    = AndThen (ConsumeIf condition) (fun _ => ConsumeWhile fuel condition) s.
Proof.
  intros fuel condition s.
  unfold ConsumeSome, AppendSkipping, StartSkipping, Map, AndThen, ConsumeIf,
    ConsumeWhile.
  destruct (nextRune s) as [[r s1]| |]; simpl; try reflexivity.
  destruct (condition r); simpl; [|reflexivity].
  destruct (ConsumeWhile_for fuel condition s1) as [[r' s2]| |] eqn:E;
    simpl; try reflexivity.
  apply ConsumeWhile_for_succeeds in E. subst r'. reflexivity.
Qed.

(** ** Zero or more *)

Lemma ConsumeWhile_for_stops fuel condition :
  forall s r s',
    ConsumeWhile_for fuel condition s = Returns (r, s') ->
    exists r0 next, nextRune s' = Returns (r0, next) /\ condition r0 = false.
Proof.
  induction fuel as [|fuel IH]; intros s r s'; simpl; [discriminate|].
  destruct (nextRune s) as [[r0 s0]| |] eqn:En; simpl; try discriminate.
  destruct (condition r0) eqn:Ec; simpl; [apply IH|].
  intros [= <- <-]. eauto.
Qed.

(** X4. For a condition that rejects [RuneError], [ConsumeWhile] on a cursor
    within bounds returns as soon as the clock exceeds the bytes left, always
    the same success: a cursor that follows the given one, at which the next
    rune fails the condition, and from which a second [ConsumeWhile] consumes
    nothing. *)
Theorem ConsumeWhile_returns_where_condition_fails :
  forall (condition : rune -> bool) (s : state),
    condition utf8.RuneError = false ->
    go_state s -> in_bounds s ->
    exists s',
      (forall fuel, len (data s) - offset s < Z.of_nat fuel ->
                    ConsumeWhile fuel condition s = Returns (Val MkEmpty, s')) /\
      follows s s' /\
      (exists r next, nextRune s' = Returns (r, next) /\ condition r = false) /\
      (forall fuel,
          ConsumeWhile (S fuel) condition s' = Returns (Val MkEmpty, s')).
Proof.
  intros condition s Hc Hg Hb.
  set (n0 := S (Z.to_nat (len (data s) - offset s))).
  destruct (ConsumeWhile_for_returns condition Hc n0 s Hg Hb) as [s' Hrun].
  { unfold n0, in_bounds in *. lia. }
  exists s'.
  pose proof (ConsumeWhile_for_stops n0 condition s _ s' Hrun)
    as (r & next & Hn & Hr).
  repeat split.
  - intros fuel Hlt. unfold ConsumeWhile.
    apply ConsumeWhile_for_more_fuel with (1 := Hrun).
    unfold n0, in_bounds in *. lia.
  - pose proof (advances_ConsumeWhile n0 condition s Hg Hb) as H.
    unfold ConsumeWhile in H. rewrite Hrun in H. apply H.
  - pose proof (advances_ConsumeWhile n0 condition s Hg Hb) as H.
    unfold ConsumeWhile in H. rewrite Hrun in H. apply H.
  - pose proof (advances_ConsumeWhile n0 condition s Hg Hb) as H.
    unfold ConsumeWhile in H. rewrite Hrun in H. apply H.
  - exists r, next. split; assumption.
  - intros fuel. eapply ConsumeWhile_stops_at_once; eassumption.
Qed.

Lemma ConsumeWhile_returns_where_condition_fails_witness :
  exists s',
    ConsumeWhile 5 example.isWhitespace {| data := "a  b"; offset := 1 |}
    = Returns (Val MkEmpty, s') /\
    nextRune s' = Returns (example.chr "b", {| data := "a  b"; offset := 4 |}).
Proof.
  assert (Hg : go_state {| data := "a  b"; offset := 1 |})
    by (unfold go_state; vm_compute; discriminate).
  assert (Hb : in_bounds {| data := "a  b"; offset := 1 |})
    by (unfold in_bounds; vm_compute; split; discriminate).
  destruct (ConsumeWhile_returns_where_condition_fails example.isWhitespace
              {| data := "a  b"; offset := 1 |} eq_refl Hg Hb)
    as (s' & Hrun & _).
  exists s'. split.
  - apply Hrun. vm_compute. reflexivity.
  - specialize (Hrun 5%nat eq_refl). vm_compute in Hrun.
    injection Hrun as <-. reflexivity.
Defined.

(** ** One rune at a time *)

Lemma DecodeRuneInString_width_le_4 (s : string) :
  forall r w, utf8.DecodeRuneInString s = (r, w) -> w <= 4.
Proof.
  intros r w. unfold utf8.DecodeRuneInString.
  assert (Hgoal : forall r' w', w' <= 4 -> (r', w') = (r, w) -> w <= 4).
  { intros r' w' Hw [= <- <-]. exact Hw. }
  destruct (len s <? 1); [apply Hgoal; lia|].
  unfold utf8.first.
  repeat match goal with
         | |- context [if ?b then _ else _] =>
             lazymatch b with
             | (byte_at s 0 <? _) => destruct b
             | (byte_at s 0 =? _) => destruct b
             end
         end;
    cbv [utf8.xx utf8.as_ utf8.s1 utf8.s2 utf8.s3 utf8.s4 utf8.s5 utf8.s6
         utf8.s7 utf8.acceptRanges utf8.locb utf8.hicb];
    cbn -[byte_at len Z.lor Z.shiftl];
    repeat match goal with
           | |- context [if ?b then _ else _] => destruct b
           end;
    apply Hgoal; lia.
Qed.

Lemma DecodeRuneInString_ascii (s : string) :
  0 < len s -> byte_at s 0 < 0x80 ->
  utf8.DecodeRuneInString s = (byte_at s 0, 1).
Proof.
  intros Hl Hb. unfold utf8.DecodeRuneInString, utf8.first.
  replace (len s <? 1) with false by (symmetry; apply Z.ltb_ge; lia).
  replace (byte_at s 0 <? 0x80) with true by (symmetry; apply Z.ltb_lt; lia).
  reflexivity.
Qed.

Lemma get_substring_0 (s : string) :
  forall n m, (0 < m)%nat -> String.get 0 (substring n m s) = String.get n s.
Proof.
  induction s as [|c s IH]; intros n m Hm.
  - destruct n; destruct m; reflexivity || lia.
  - destruct n as [|n]; destruct m as [|m]; try lia; simpl.
    + reflexivity.
    + apply IH. lia.
Qed.

(** X5. Before the end of the input [nextRune] returns a cursor on the same
    input between 1 and 4 bytes further on, never past the end; when the
    byte at the cursor is below 0x80 the rune is that byte and the cursor
    moves by exactly one byte. *)
Theorem nextRune_moves_one_to_four_bytes :
  forall s : state,
    go_state s -> in_bounds s -> offset s < len (data s) ->
    exists r s',
      nextRune s = Returns (r, s') /\
      data s' = data s /\
      1 <= offset s' - offset s <= 4 /\
      offset s' <= len (data s) /\
      (byte_at (data s) (Z.to_nat (offset s)) < 0x80 ->
       r = byte_at (data s) (Z.to_nat (offset s)) /\
       offset s' = offset s + 1).
Proof.
  intros s Hg Hb Hlt.
  pose proof Hb as Hb'. unfold in_bounds in Hb'.
  unfold nextRune, remaining, slice_from.
  rewrite slice_returns by lia. simpl.
  set (rem := substring (Z.to_nat (offset s))
                (Z.to_nat (len (data s) - offset s)) (data s)).
  assert (Hlen : len rem = len (data s) - offset s).
  { unfold rem, len. rewrite length_substring; unfold len in *; lia. }
  destruct (utf8.DecodeRuneInString rem) as [r w] eqn:Ed.
  destruct (DecodeRuneInString_width rem r w Ed) as [_ Hw].
  specialize (Hw ltac:(lia)).
  pose proof (DecodeRuneInString_width_le_4 rem r w Ed) as H4.
  destruct (consume_follows s w Hg Hb ltac:(lia)) as [[Hd Ho] Hoff].
  exists r, (consume s w).
  split; [reflexivity|]. split; [exact Hd|].
  rewrite Hoff. split; [lia|]. split; [lia|].
  intros Hascii.
  assert (Hb0 : byte_at rem 0 = byte_at (data s) (Z.to_nat (offset s))).
  { unfold byte_at, rem. rewrite get_substring_0 by lia. reflexivity. }
  rewrite <- Hb0 in *.
  rewrite DecodeRuneInString_ascii in Ed by lia.
  injection Ed as <- <-. split; [reflexivity | lia].
Qed.

Lemma nextRune_moves_one_to_four_bytes_witness :
  exists r s',
    nextRune {| data := "a€b"; offset := 1 |} = Returns (r, s') /\
    1 <= offset s' - 1 <= 4.
Proof.
  assert (Hg : go_state {| data := "a€b"; offset := 1 |})
    by (unfold go_state; vm_compute; discriminate).
  assert (Hb : in_bounds {| data := "a€b"; offset := 1 |})
    by (unfold in_bounds; vm_compute; split; discriminate).
  destruct (nextRune_moves_one_to_four_bytes
              {| data := "a€b"; offset := 1 |} Hg Hb eq_refl)
    as (r & s' & Hn & _ & Hw & _).
  exists r, s'. split; [exact Hn | exact Hw].
Defined.

(** ** Literals *)

Lemma substring_0_of_substring (s : string) :
  forall n k m, (m <= k)%nat ->
    substring 0 m (substring n k s) = substring n m s.
Proof.
  induction s as [|c s IH]; intros n k m Hle.
  - destruct n; destruct k; destruct m; reflexivity.
  - destruct n as [|n]; simpl.
    + destruct k as [|k]; destruct m as [|m]; try lia; try reflexivity.
      simpl. f_equal. apply IH. lia.
    + apply IH. exact Hle.
Qed.

Lemma substring_all (s : string) : substring 0 (String.length s) s = s.
Proof. induction s as [|c s IH]; simpl; [reflexivity | f_equal; exact IH]. Qed.

(** [Exactly] on a cursor within bounds, without the slice and the wrapping
    addition: a comparison of the bytes at the cursor with the token. *)
Lemma Exactly_in_bounds (token : string) (s : state) :
  go_state s -> in_bounds s ->
  Exactly token s
  = if (len token <=? len (data s) - offset s)
       && String.eqb (substring (Z.to_nat (offset s)) (String.length token)
                        (data s)) token
    then Returns (Val MkEmpty,
                  {| data := data s; offset := offset s + len token |})
    else Returns (Error ErrNoMatch, s).
Proof.
  intros Hg Hb. pose proof Hb as Hb'. unfold in_bounds in Hb'.
  unfold Exactly, remaining, slice_from.
  rewrite slice_returns by lia. simpl.
  set (rem := substring _ _ _).
  assert (Hlen : len rem = len (data s) - offset s).
  { unfold rem, len. rewrite length_substring; unfold len in *; lia. }
  unfold strings.HasPrefix. rewrite Hlen.
  destruct (len token <=? len (data s) - offset s) eqn:El; simpl;
    [|reflexivity].
  apply Z.leb_le in El.
  unfold rem. rewrite substring_0_of_substring by (unfold len in *; lia).
  destruct (String.eqb _ token); [|reflexivity].
  unfold consume, int_add. rewrite int_wrap_small; [reflexivity|].
  pose proof (len_nonneg token).
  unfold go_state, min_int, max_int in *. lia.
Qed.

(** X6. On a cursor within bounds [Exactly token] succeeds exactly when
    the input holds the bytes of [token] at the cursor; it then returns the
    cursor [len token] bytes further on.  In every other case it fails with
    [ErrNoMatch] at the cursor it was given. *)
Theorem Exactly_succeeds_iff_token_at_cursor :
  forall (token : string) (s : state),
    go_state s -> in_bounds s ->
    ((exists v s', Exactly token s = Returns (Val v, s')) <->
     (offset s + len token <= len (data s) /\
      substring (Z.to_nat (offset s)) (String.length token) (data s) = token))
    /\
    (forall v s', Exactly token s = Returns (Val v, s') ->
                  data s' = data s /\ offset s' = offset s + len token) /\
    (forall err st, Exactly token s = Returns (Error err, st) ->
                    err = ErrNoMatch /\ st = s).
Proof.
  intros token s Hg Hb. rewrite (Exactly_in_bounds token s Hg Hb).
  destruct (len token <=? len (data s) - offset s) eqn:El; simpl.
  - apply Z.leb_le in El.
    destruct (String.eqb_spec
                (substring (Z.to_nat (offset s)) (String.length token) (data s))
                token) as [Heq|Hne].
    + split; [split|split].
      * intros _. split; [lia | exact Heq].
      * intros _. eauto.
      * intros v s' [= _ <-]. split; reflexivity.
      * intros err st Hx. discriminate.
    + split; [split|split].
      * intros (v & s' & Hx). discriminate.
      * intros [_ Hx]. contradiction.
      * intros v s' Hx. discriminate.
      * intros err st [= <- <-]. split; reflexivity.
  - apply Z.leb_gt in El. split; [split|split].
    + intros (v & s' & Hx). discriminate.
    + intros [Hx _]. lia.
    + intros v s' Hx. discriminate.
    + intros err st [= <- <-]. split; reflexivity.
Qed.

Lemma Exactly_succeeds_iff_token_at_cursor_witness :
  (exists v s', Exactly "=" {| data := "a=1"; offset := 1 |}
                = Returns (Val v, s')) /\
  (ErrNoMatch = ErrNoMatch /\
   {| data := "a=1"; offset := 2 |} = {| data := "a=1"; offset := 2 |}).
Proof.
  assert (Hg : forall o, go_state {| data := "a=1"; offset := o |})
    by (intros o; unfold go_state; vm_compute; discriminate).
  split.
  - apply (proj1 (Exactly_succeeds_iff_token_at_cursor "="
                    {| data := "a=1"; offset := 1 |} (Hg 1)
                    ltac:(unfold in_bounds; vm_compute; split; discriminate))).
    split; [vm_compute; discriminate | reflexivity].
  - apply (proj2 (proj2 (Exactly_succeeds_iff_token_at_cursor "="
                    {| data := "a=1"; offset := 2 |} (Hg 2)
                    ltac:(unfold in_bounds; vm_compute; split; discriminate)))
             ErrNoMatch {| data := "a=1"; offset := 2 |}).
    reflexivity.
Defined.

(** X7. Capturing a literal gives the literal back: a success of
    [GetString (Exactly token)] on a cursor within bounds carries [token]
    itself, and parsing the input [token] with it returns [token]. *)
Theorem GetString_Exactly_returns_token :
  forall token : string,
    len token <= max_int ->
    Parse (GetString (Exactly token)) token = Returns (Val token) /\
    (forall s v s',
        go_state s -> in_bounds s ->
        GetString (Exactly token) s = Returns (Val v, s') -> v = token).
Proof.
  intros token Hlen.
  assert (Hget : forall s v s',
            go_state s -> in_bounds s ->
            GetString (Exactly token) s = Returns (Val v, s') ->
            v = token /\ offset s' = offset s + len token /\ data s' = data s).
  { intros s v s' Hg Hb. unfold GetString.
    rewrite (Exactly_in_bounds token s Hg Hb).
    destruct (len token <=? len (data s) - offset s) eqn:El; simpl;
      [|discriminate].
    destruct (String.eqb_spec
                (substring (Z.to_nat (offset s)) (String.length token) (data s))
                token) as [Heq|Hne]; simpl; [|discriminate].
    apply Z.leb_le in El. pose proof (len_nonneg token).
    unfold in_bounds in Hb.
    rewrite slice_returns by lia. simpl. intros [= <- <-]. simpl.
    replace (Z.to_nat (offset s + len token - offset s))
      with (String.length token) by (unfold len; lia).
    auto. }
  split.
  - assert (Hg : go_state {| data := token; offset := 0 |}) by exact Hlen.
    assert (Hb : in_bounds {| data := token; offset := 0 |})
      by (unfold in_bounds; simpl; pose proof (len_nonneg token); lia).
    unfold Parse.
    destruct (GetString (Exactly token) {| data := token; offset := 0 |})
      as [[[v|err] s']| |] eqn:E; simpl.
    + destruct (Hget _ _ _ Hg Hb E) as (-> & Ho & Hd). simpl in *.
      rewrite Ho, Hd. rewrite Z.ltb_irrefl. reflexivity.
    + exfalso. revert E. unfold GetString.
      rewrite (Exactly_in_bounds token _ Hg Hb). simpl.
      rewrite Z.sub_0_r, Z.leb_refl, substring_all, String.eqb_refl. simpl.
      rewrite slice_returns by (pose proof (len_nonneg token); lia).
      discriminate.
    + exfalso. revert E. unfold GetString.
      rewrite (Exactly_in_bounds token _ Hg Hb). simpl.
      rewrite Z.sub_0_r, Z.leb_refl, substring_all, String.eqb_refl. simpl.
      rewrite slice_returns by (pose proof (len_nonneg token); lia).
      discriminate.
    + exfalso. revert E. unfold GetString.
      rewrite (Exactly_in_bounds token _ Hg Hb). simpl.
      rewrite Z.sub_0_r, Z.leb_refl, substring_all, String.eqb_refl. simpl.
      rewrite slice_returns by (pose proof (len_nonneg token); lia).
      discriminate.
  - intros s v s' Hg Hb H. apply (Hget s v s' Hg Hb H).
Qed.

Lemma GetString_Exactly_returns_token_witness :
  len "false" <= max_int /\
  Parse (GetString (Exactly "false")) "false" = Returns (Val "false").
Proof.
  assert (H : len "false" <= max_int) by (vm_compute; discriminate).
  split; [exact H|].
  exact (proj1 (GetString_Exactly_returns_token "false" H)).
Defined.

(** ** Laws of composition *)

Lemma agree_Parse {T} (p q : Parser T) (d : string) :
  agree (p {| data := d; offset := 0 |}) (q {| data := d; offset := 0 |}) ->
  Parse p d = Parse q d.
Proof.
  unfold Parse, agree.
  destruct (p _) as [[[v1|e1] s1]| |]; destruct (q _) as [[[v2|e2] s2]| |];
    simpl; try contradiction; try reflexivity.
  - intros [-> ->]. reflexivity.
  - intros ->. reflexivity.
Qed.

Lemma agree_refl {T} (c : call (res T * state)) : agree c c.
Proof. destruct c as [[[v|e] s]| |]; simpl; auto. Qed.

Section Laws.

Variables T U V A B : Type.
Variable p : Parser T.
Variable q : Parser U.
Variable w : Parser V.

(** X8. [Map] composes: mapping twice is mapping once with the composed
    function, cursor of a failure included; mapping [Succeed v] is
    succeeding with the mapped value; and mapping with the identity changes
    at most the cursor of a failure, which [Parse] does not see. *)
Theorem Map_laws :
  forall (f : T -> A) (g : A -> B) (v : T) (s : state) (d : string),
    Map (Map p f) g s = Map p (fun t => g (f t)) s /\
    Map (Succeed v) f s = Succeed (f v) s /\
    agree (Map p (fun t => t) s) (p s) /\
    Parse (Map p (fun t => t)) d = Parse p d.
Proof.
  intros f g v s d.
  assert (Hid : forall s0, agree (Map p (fun t => t) s0) (p s0)).
  { intros s0. unfold Map.
    destruct (p s0) as [[[t|e] s']| |]; simpl; auto. }
  repeat split.
  - unfold Map. destruct (p s) as [[[t|e] s']| |]; reflexivity.
  - apply Hid.
  - apply agree_Parse, Hid.
Qed.

(** X9. [AndThen] and [Succeed] obey the laws of sequencing: [Succeed v]
    followed by a handler is the handler's parser for [v]; a parser followed
    by [Succeed] does what the parser does; and nesting to the left or to the
    right gives the same value, error and success cursor.  The two sides
    differ at most in the cursor returned with a failure, so [Parse] returns
    the same on both. *)
Theorem AndThen_laws :
  forall (f : T -> Parser U) (g : U -> Parser V) (v : T) (s : state)
         (d : string),
    AndThen (Succeed v) f s = f v s /\
    agree (AndThen p (fun t => Succeed t) s) (p s) /\
    agree (AndThen (AndThen p f) g s)
          (AndThen p (fun t => AndThen (f t) g) s) /\
    Parse (AndThen p (fun t => Succeed t)) d = Parse p d /\
    Parse (AndThen (AndThen p f) g) d
    = Parse (AndThen p (fun t => AndThen (f t) g)) d.
Proof.
  intros f g v s d.
  assert (Hr : forall s0, agree (AndThen p (fun t => Succeed t) s0) (p s0)).
  { intros s0. unfold AndThen, Succeed.
    destruct (p s0) as [[[t|e] s']| |]; simpl; auto. }
  assert (Ha : forall s0, agree (AndThen (AndThen p f) g s0)
                            (AndThen p (fun t => AndThen (f t) g) s0)).
  { intros s0. unfold AndThen.
    destruct (p s0) as [[[t|e] s']| |]; simpl; auto.
    destruct (f t s') as [[[u|e] s'']| |]; simpl; auto.
    apply agree_refl. }
  repeat split.
  - apply Hr.
  - apply Ha.
  - apply agree_Parse, Hr.
  - apply agree_Parse, Ha.
Qed.

End Laws.

(** ** Sequences *)

(** X10. Each sequence function is a step of [AndThen] and [Map], whatever
    parsers it is given.  [AppendKeeping p q] returns the same value, error
    and success cursor as [p] followed by [q] with the two values paired;
    [AppendSkipping p q] the same as [p] followed by [q] with the value of
    [p] kept.  [Apply], [Apply2] and [Apply3] are [Map] with the mapper
    applied to the kept fields, the first kept value first.  The three of
    [AppendKeeping], [AppendSkipping] and [Map] give agreeing results on
    parsers that agree on every cursor.  The shape of the grammar's binding
    (keep, skip, skip, skip, keep under [Apply2]) agrees with the chain of
    [AndThen] that hands the first kept value and then the second to the
    mapper. *)
Theorem sequence_functions_are_AndThen_steps :
  forall (T U V W A : Type) (p p' : Parser T) (q q' : Parser U)
         (a b c : Parser W)
         (p1 : Parser (Seq Empty T)) (p2 : Parser (Seq (Seq Empty T) U))
         (p3 : Parser (Seq (Seq (Seq Empty T) U) V))
         (f1 : T -> A) (f2 : T -> U -> A) (f3 : T -> U -> V -> A) (s : state),
    agree (AppendKeeping p q s)
          (AndThen p (fun t =>
             Map q (fun u => {| first := t; second := u |})) s) /\
    agree (AppendSkipping p q s)
          (AndThen p (fun t => Map q (fun _ => t)) s) /\
    Apply p1 f1 s = Map p1 (fun seq => f1 (second seq)) s /\
    Apply2 p2 f2 s
    = Map p2 (fun seq => f2 (second (first seq)) (second seq)) s /\
    Apply3 p3 f3 s
    = Map p3 (fun seq => f3 (second (first (first seq)))
                            (second (first seq)) (second seq)) s /\
    ((forall s0, agree (p s0) (p' s0)) ->
     (forall s0, agree (q s0) (q' s0)) ->
     agree (AppendKeeping p q s) (AppendKeeping p' q' s) /\
     agree (AppendSkipping p q s) (AppendSkipping p' q' s) /\
     agree (Map p f1 s) (Map p' f1 s)) /\
    agree (Apply2
             (AppendKeeping
                (AppendSkipping
                   (AppendSkipping (AppendSkipping (StartKeeping p) a) b) c)
                q) f2 s)
          (AndThen p (fun t =>
             AndThen a (fun _ =>
               AndThen b (fun _ =>
                 AndThen c (fun _ => Map q (fun u => f2 t u))))) s).
Proof.
  intros T U V W A p p' q q' a b c p1 p2 p3 f1 f2 f3 s.
  split; [|split; [|split; [|split; [|split; [|split]]]]].
  - unfold AppendKeeping, AndThen, Map.
    destruct (p s) as [[[t|e] s1]| |]; simpl; auto.
    destruct (q s1) as [[[u|e] s2]| |]; simpl; auto.
  - unfold AppendSkipping, AndThen, Map.
    destruct (p s) as [[[t|e] s1]| |]; simpl; auto.
    destruct (q s1) as [[[u|e] s2]| |]; simpl; auto.
  - reflexivity.
  - reflexivity.
  - reflexivity.
  - intros Hp Hq.
    unfold AppendKeeping, AppendSkipping, Map.
    pose proof (Hp s) as Hps.
    destruct (p s) as [[[t|e] s1]| |]; destruct (p' s) as [[[t'|e'] s1']| |];
      simpl in *; try contradiction; auto.
    destruct Hps as [<- <-].
    pose proof (Hq s1) as Hqs.
    destruct (q s1) as [[[u|e] s2]| |]; destruct (q' s1) as [[[u'|e'] s2']| |];
      simpl in *; try contradiction; auto.
    destruct Hqs as [<- <-]. auto.
  - unfold Apply2, AppendKeeping, AppendSkipping, StartKeeping, AndThen, Map.
    destruct (p s) as [[[t|e] s1]| |]; simpl; auto.
    destruct (a s1) as [[[x|e] s2]| |]; simpl; auto.
    destruct (b s2) as [[[y|e] s3]| |]; simpl; auto.
    destruct (c s3) as [[[z|e] s4]| |]; simpl; auto.
    destruct (q s4) as [[[u|e] s5]| |]; simpl; auto.
Qed.

Lemma sequence_functions_are_AndThen_steps_witness :
  agree (AppendKeeping (Map (Exactly "a") (fun t => t)) (Exactly "b")
           {| data := "ab"; offset := 0 |})
        (AppendKeeping (Exactly "a") (AndThen (Exactly "b") (fun t => Succeed t))
           {| data := "ab"; offset := 0 |}).
Proof.
  pose proof (sequence_functions_are_AndThen_steps Empty Empty Empty Empty Empty
                (Map (Exactly "a") (fun t => t)) (Exactly "a")
                (Exactly "b") (AndThen (Exactly "b") (fun t => Succeed t))
                (@Fail Empty) (@Fail Empty) (@Fail Empty)
                (@Fail (Seq Empty Empty))
                (@Fail (Seq (Seq Empty Empty) Empty))
                (@Fail (Seq (Seq (Seq Empty Empty) Empty) Empty))
                (fun t => t) (fun t _ => t) (fun t _ _ => t)
                {| data := "ab"; offset := 0 |})
    as (_ & _ & _ & _ & _ & Hcongr & _).
  refine (proj1 (Hcongr _ _)).
  - intros s0. unfold Map.
    destruct (Exactly "a" s0) as [[[t|e] s1]| |]; simpl; auto.
  - intros s0. unfold AndThen, Succeed.
    destruct (Exactly "b" s0) as [[[t|e] s1]| |]; simpl; auto.
Defined.

(** ** Nested alternatives *)

Lemma OneOf_range_app {T} (ps qs : list (Parser T)) (s : state) :
  forall err,
    OneOf_range (ps ++ qs) s err
    = match OneOf_range ps s err with
      | Returns (Error err', _) => OneOf_range qs s err'
      | other => other
      end.
Proof.
  induction ps as [|p ps IH]; intros err; simpl; [reflexivity|].
  destruct (p s) as [[[v|e] s']| |]; simpl; try reflexivity.
  apply IH.
Qed.

Lemma OneOf_range_nonempty {T} (qs : list (Parser T)) (s : state) :
  qs <> [] -> forall e1 e2, OneOf_range qs s e1 = OneOf_range qs s e2.
Proof.
  destruct qs as [|q qs]; [congruence|]. intros _ e1 e2. simpl.
  destruct (q s) as [[[v|e] s']| |]; reflexivity.
Qed.

(** X11. A [OneOf] nested at the head of a [OneOf] can be flattened: the
    two return the same on every cursor.  A [OneOf] nested at the end can be
    flattened when it lists at least one parser; an empty one replaces the
    error of the parsers before it by [ErrNoMatch]. *)
Theorem OneOf_flattens :
  forall (T : Type) (ps qs : list (Parser T)) (s : state),
    OneOf (OneOf ps :: qs) s = OneOf (ps ++ qs) s /\
    (qs <> [] -> OneOf (ps ++ [OneOf qs]) s = OneOf (ps ++ qs) s) /\
    (forall err st, OneOf (ps ++ [OneOf []]) s = Returns (Error err, st) ->
                    err = ErrNoMatch).
Proof.
  intros T ps qs s. unfold OneOf. repeat split.
  - rewrite OneOf_range_app. simpl.
    pose proof (OneOf_range_restores T ps s ErrNoMatch) as Hr.
    destruct (OneOf_range ps s ErrNoMatch) as [[[v|e] s']| |]; simpl;
      try reflexivity.
  - intros Hne. rewrite !OneOf_range_app.
    destruct (OneOf_range ps s ErrNoMatch) as [[[v|e] s']| |]; simpl;
      try reflexivity.
    rewrite (OneOf_range_nonempty qs s Hne ErrNoMatch e).
    destruct (OneOf_range qs s e) as [[[v|e'] s'']| |] eqn:E; simpl;
      try reflexivity.
    apply OneOf_range_restores in E. subst. reflexivity.
  - intros err st. rewrite OneOf_range_app.
    destruct (OneOf_range ps s ErrNoMatch) as [[[v|e] s']| |]; simpl;
      congruence.
Qed.

Lemma OneOf_flattens_witness :
  OneOf ([@Fail Z] ++ [OneOf [Succeed 1; Succeed 2]])
    {| data := "x"; offset := 0 |}
  = OneOf ([@Fail Z] ++ [Succeed 1; Succeed 2]) {| data := "x"; offset := 0 |}.
Proof.
  apply (proj1 (proj2 (OneOf_flattens Z [@Fail Z] [Succeed 1; Succeed 2]
                         {| data := "x"; offset := 0 |}))).
  discriminate.
Defined.

(** ** The driver on built parsers *)

(** X12. When [Parse] returns a value for a parser built from the package,
    the parser has consumed the whole input: it succeeded with that value and
    its final cursor is on the input, at offset [len]. *)
Theorem Parse_success_consumes_everything :
  forall (T : Type) (p : Parser T) (d : string) (v : T),
    Built p -> len d <= max_int ->
    Parse p d = Returns (Val v) ->
    exists final,
      p {| data := d; offset := 0 |} = Returns (Val v, final) /\
      data final = d /\ offset final = len d.
Proof.
  intros T p d v Hp Hlen. unfold Parse.
  assert (Hg : go_state {| data := d; offset := 0 |}) by exact Hlen.
  assert (Hb : in_bounds {| data := d; offset := 0 |})
    by (unfold in_bounds; simpl; pose proof (len_nonneg d); lia).
  pose proof (Built_advances p Hp _ Hg Hb) as H.
  destruct (p {| data := d; offset := 0 |}) as [[[v'|e] final]| |]; simpl;
    try discriminate.
  destruct H as [Hd Ho]. simpl in *.
  destruct (offset final <? len (data final)) eqn:El; [discriminate|].
  intros [= ->]. apply Z.ltb_ge in El.
  exists final. repeat split; [exact Hd | rewrite Hd in *; lia].
Qed.

Lemma Parse_success_consumes_everything_witness :
  exists final,
    example.ConfigurationParser (example.NewConfigParser 4)
      {| data := "[a=1]"; offset := 0 |}
    = Returns (Val [ {| example.Name := "a";
                        example.Value := example.BindingInt 1 |} ], final) /\
    data final = "[a=1]" /\ offset final = len "[a=1]".
Proof.
  apply Parse_success_consumes_everything.
  - apply NewConfigParser_Built.
  - vm_compute. discriminate.
  - vm_compute. reflexivity.
Defined.

(** ** The list of bindings *)

Lemma bindingSlice_for_acc (b : example.BindingList) :
  forall acc,
    example.bindingSlice_for b acc = (acc ++ example.bindingSlice_for b [])%list.
Proof.
  induction b as [|x next IH]; intros acc; simpl.
  - rewrite app_nil_r. reflexivity.
  - rewrite IH, (IH [x]), app_assoc. reflexivity.
Qed.

Lemma prepend_all_snoc (bs : list example.Binding) (b : example.Binding) :
  prepend_all (bs ++ [b])%list = example.new_BindingList b (prepend_all bs).
Proof. unfold prepend_all. rewrite fold_left_app. reflexivity. Qed.

Lemma bindingSlice_for_prepend_all (bs : list example.Binding) :
  example.bindingSlice_for (prepend_all bs) [] = rev bs.
Proof.
  induction bs as [|b bs IH] using rev_ind; [reflexivity|].
  rewrite prepend_all_snoc, rev_app_distr. simpl.
  rewrite bindingSlice_for_acc, IH. reflexivity.
Qed.

(** One step of [bindingsParser] on the accumulator of the bindings [bs]: it
    either continues with one more binding in front, or it is done, at the
    cursor it was given, with the slice [rev bs] of a non-empty [bs]. *)
Lemma bindingsParser_stepper_step (bp : Parser example.Binding)
  (ws : Parser Empty) (bs : list example.Binding) (s : state) :
  forall step s',
    example.bindingsParser_stepper bp ws (prepend_all bs) s
    = Returns (Val step, s') ->
    (Done step = false /\ exists b, Accum step = prepend_all (bs ++ [b])%list) \/
    (Done step = true /\ s' = s /\ bs <> []
     /\ parser.Value step = rev bs).
Proof.
  intros step s'.
  destruct bs as [|b0 bs0] using rev_ind.
  - simpl. unfold Map.
    destruct (bp s) as [[[b|e] s1]| |]; simpl; try discriminate.
    intros [= <- <-]. left. split; [reflexivity|]. exists b. reflexivity.
  - clear IHbs0. rewrite prepend_all_snoc.
    set (bs := (bs0 ++ [b0])%list).
    unfold example.bindingsParser_stepper, OneOf. simpl.
    match goal with
    | |- context [bind (Apply ?x ?m s)] => destruct (Apply x m s)
        as [[[st|e] s1]| |] eqn:E
    end; simpl; try discriminate.
    + intros [= <- <-]. left. revert E. unfold Apply.
      match goal with
      | |- context [bind (?x s)] => destruct (x s) as [[[sq|e] s2]| |]
      end; simpl; try discriminate.
      intros [= <- <-]. simpl. split; [reflexivity|].
      exists (second sq). rewrite (prepend_all_snoc bs), <- prepend_all_snoc.
      reflexivity.
    + intros [= <- <-]. right. simpl.
      split; [reflexivity|]. split; [reflexivity|]. split.
      * unfold bs. destruct bs0; discriminate.
      * rewrite <- bindingSlice_for_prepend_all. unfold bs.
        rewrite prepend_all_snoc. reflexivity.
Qed.

(** X13. Whenever the loop of [bindingsParser] succeeds, it has gone
    through one continuing step per binding, each step putting its binding in
    front of the accumulator, and the slice it returns lists those bindings
    from the last one back to the first; there is at least one, and the
    cursor is the one the last binding left. *)
Theorem bindingsParser_returns_bindings_last_first :
  forall (bp : Parser example.Binding) (ws : Parser Empty) (fuel : nat)
         (initial : state) (v : list example.Binding) (s' : state),
    Loop fuel example.nil_BindingList (example.bindingsParser_stepper bp ws)
      initial = Returns (Val v, s') ->
    exists bs,
      bs <> [] /\ v = rev bs /\
      LoopReaches (example.bindingsParser_stepper bp ws)
        example.nil_BindingList initial (List.length bs) (prepend_all bs) s'.
Proof.
  intros bp ws fuel initial v s'. unfold Loop.
  assert (Hgen : forall fuel0 bs current,
    LoopReaches (example.bindingsParser_stepper bp ws)
      example.nil_BindingList initial (List.length bs) (prepend_all bs)
      current ->
    Loop_for fuel0 (example.bindingsParser_stepper bp ws) initial
      (prepend_all bs) current = Returns (Val v, s') ->
    exists bs',
      bs' <> [] /\ v = rev bs' /\
      LoopReaches (example.bindingsParser_stepper bp ws)
        example.nil_BindingList initial (List.length bs') (prepend_all bs') s').
  { induction fuel0 as [|fuel0 IH]; intros bs current Hreach; simpl;
      [discriminate|].
    destruct (example.bindingsParser_stepper bp ws (prepend_all bs) current)
      as [[[step|e] next]| |] eqn:E; simpl; try discriminate.
    destruct (bindingsParser_stepper_step bp ws bs current step next E)
      as [[Hd [b Hacc]] | (Hd & Hs & Hne & Hv)]; rewrite Hd.
    - rewrite Hacc. apply IH.
      rewrite <- Hacc, length_app, Nat.add_comm. simpl.
      eapply LoopReaches_continue; eassumption.
    - intros [= <- <-]. subst next. exists bs. auto. }
  apply (Hgen fuel [] initial). apply LoopReaches_entry.
Qed.

Lemma bindingsParser_returns_bindings_last_first_witness :
  exists bs,
    bs <> [] /\
    [ {| example.Name := "b"; example.Value := example.BindingInt 2 |};
      {| example.Name := "a"; example.Value := example.BindingInt 1 |} ]
    = rev bs /\
    LoopReaches
      (example.bindingsParser_stepper
         (example.bindingParser (example.NewConfigParser 4))
         (example.whitespaceParser (example.NewConfigParser 4)))
      example.nil_BindingList {| data := "a=1,b=2]"; offset := 0 |}
      (List.length bs) (prepend_all bs) {| data := "a=1,b=2]"; offset := 7 |}.
Proof.
  apply (bindingsParser_returns_bindings_last_first
           (example.bindingParser (example.NewConfigParser 4))
           (example.whitespaceParser (example.NewConfigParser 4)) 4).
  vm_compute. reflexivity.
Defined.

(** ** The errors of built parsers *)

Ltac run_first :=
  match goal with
  | |- context [bind (?p ?s)] =>
      let E := fresh "E" in
      destruct (p s) as [[[?v|?e] ?s1]| |] eqn:E; simpl; try discriminate
  end.

Lemma no_other_error_OneOf_range {T} (parsers : list (Parser T)) :
  (forall p, In p parsers -> no_other_error p) ->
  forall s err st,
    OneOf_range parsers s ErrNoMatch = Returns (Error err, st) ->
    err = ErrNoMatch.
Proof.
  intros Hall s.
  assert (Hgen : forall (ps : list (Parser T)) err0 err st,
            (forall p, In p ps -> no_other_error p) -> err0 = ErrNoMatch ->
            OneOf_range ps s err0 = Returns (Error err, st) ->
            err = ErrNoMatch).
  { induction ps as [|p ps IH]; intros err0 err st Hps He; simpl.
    - congruence.
    - run_first. apply IH.
      + intros q Hq. apply Hps. right. exact Hq.
      + eapply (Hps p (or_introl eq_refl)). eassumption. }
  intros err st. apply Hgen; auto.
Qed.

Lemma no_other_error_Loop_for {A T} (stepper : A -> Parser (Step A T))
  (initial : state) :
  (forall accum, no_other_error (stepper accum)) ->
  forall fuel accum current err st,
    Loop_for fuel stepper initial accum current = Returns (Error err, st) ->
    err = ErrNoMatch.
Proof.
  intros Hs. induction fuel as [|fuel IH]; intros accum current err st; simpl;
    [discriminate|].
  run_first.
  - destruct (Done v); [discriminate | apply IH].
  - intros [= <- <-]. eapply Hs. eassumption.
Qed.

Lemma no_other_error_Map {T A} (p : Parser T) (mapper : T -> A) :
  no_other_error p -> no_other_error (Map p mapper).
Proof.
  intros Hp s err st. unfold Map. run_first.
  intros [= <- <-]. eapply Hp. eassumption.
Qed.

Lemma no_other_error_AppendSkipping {T U} (p : Parser T) (q : Parser U) :
  no_other_error p -> no_other_error q -> no_other_error (AppendSkipping p q).
Proof.
  intros Hp Hq s err st. unfold AppendSkipping. run_first.
  - run_first. intros [= <- <-]. eapply Hq. eassumption.
  - intros [= <- <-]. eapply Hp. eassumption.
Qed.

Lemma no_other_error_ConsumeIf condition : no_other_error (ConsumeIf condition).
Proof.
  intros s err st. unfold ConsumeIf.
  destruct (nextRune s) as [[r s1]| |]; simpl; try discriminate.
  destruct (condition r); simpl; congruence.
Qed.

Lemma no_other_error_ConsumeWhile fuel condition :
  no_other_error (ConsumeWhile fuel condition).
Proof.
  intros s err st. unfold ConsumeWhile. intros Hx.
  apply ConsumeWhile_for_succeeds in Hx. discriminate.
Qed.

Lemma Built_no_other_error {T} (p : Parser T) : Built p -> no_other_error p.
Proof.
  induction 1;
    try (apply no_other_error_Map; assumption);
    try apply no_other_error_ConsumeIf;
    try apply no_other_error_ConsumeWhile;
    try (apply no_other_error_AppendSkipping; assumption);
    intros s err st;
    try unfold Succeed, Fail, AndThen, Exactly, GetString,
      AppendKeeping, Apply, Apply2, Apply3.
  - discriminate.
  - congruence.
  - run_first.
    + intros Hx. eapply H1; eassumption.
    + intros [= <- <-]. eapply IHBuilt; eassumption.
  - unfold OneOf. apply no_other_error_OneOf_range. assumption.
  - revert s err st. unfold ConsumeSome, StartSkipping.
    apply no_other_error_AppendSkipping;
      [apply no_other_error_Map, no_other_error_ConsumeIf
      | apply no_other_error_ConsumeWhile].
  - destruct (remaining s); simpl; try discriminate.
    destruct (strings.HasPrefix _ _); congruence.
  - run_first.
    + destruct (slice _ _ _); simpl; discriminate.
    + intros [= <- <-]. eapply IHBuilt; eassumption.
  - run_first.
    + run_first. intros [= <- <-]. eapply IHBuilt2; eassumption.
    + intros [= <- <-]. eapply IHBuilt1; eassumption.
  - unfold Loop. apply no_other_error_Loop_for. assumption.
Qed.

(** X14. A parser built from the package fails with no error but
    [ErrNoMatch] (as long as the handlers and steppers it is given hand back
    built parsers), so [Parse] of such a parser returns no error but
    [ErrNoMatch] and [ErrUnconsumedInput]. *)
Theorem Built_fails_with_ErrNoMatch_only :
  forall (T : Type) (p : Parser T),
    Built p ->
    (forall s err st, p s = Returns (Error err, st) -> err = ErrNoMatch) /\
    (forall d err, Parse p d = Returns (Error err) ->
                   err = ErrNoMatch \/ err = ErrUnconsumedInput).
Proof.
  intros T p Hp. pose proof (Built_no_other_error p Hp) as Hn. split.
  - exact Hn.
  - intros d err. unfold Parse. run_first.
    + destruct (_ <? _); [|discriminate]. intros [= <-]. right. reflexivity.
    + intros [= <-]. left. eapply Hn. eassumption.
Qed.

Lemma Built_fails_with_ErrNoMatch_only_witness :
  Built (example.ConfigurationParser (example.NewConfigParser 4)) /\
  (ErrNoMatch = ErrNoMatch \/ ErrNoMatch = ErrUnconsumedInput).
Proof.
  split; [apply NewConfigParser_Built|].
  apply (proj2 (Built_fails_with_ErrNoMatch_only _ _ (NewConfigParser_Built 4))
           "[x=01]" ErrNoMatch).
  vm_compute. reflexivity.
Defined.

(** ** Termination *)

Lemma follows_remaining (s s' : state) (n : Z) :
  follows s s' -> len (data s) - offset s < n ->
  len (data s') - offset s' < n.
Proof. unfold follows. intros [Hd Ho] H. rewrite Hd in *. lia. Qed.

Ltac returned := eexists _, _; split; [reflexivity|].

Lemma total_Succeed {T} n (value : T) : total_from n (Succeed value).
Proof. intros s Hg Hb _. returned. apply follows_refl, Hb. Qed.

Lemma total_Fail {T} n : total_from n (@Fail T).
Proof. intros s Hg Hb _. returned. apply follows_refl, Hb. Qed.

Lemma total_Map {T A} n (p : Parser T) (mapper : T -> A) :
  total_from n p -> total_from n (Map p mapper).
Proof.
  intros Hp s Hg Hb Hrem.
  destruct (Hp s Hg Hb Hrem) as ([v|e] & s' & E & Hf); unfold Map;
    rewrite E; simpl; returned; [exact Hf | apply follows_refl, Hb].
Qed.

Lemma total_AndThen {T U} n (p : Parser T) (handler : T -> Parser U) :
  total_from n p -> (forall t, total_from n (handler t)) ->
  total_from n (AndThen p handler).
Proof.
  intros Hp Hh s Hg Hb Hrem.
  destruct (Hp s Hg Hb Hrem) as ([v|e] & s' & E & Hf); unfold AndThen;
    rewrite E; simpl; [|returned; apply follows_refl, Hb].
  destruct (Hh v s' (follows_go_state _ _ Hg Hf) (follows_in_bounds _ _ Hb Hf)
              (follows_remaining _ _ _ Hf Hrem)) as (r & s'' & E' & Hf').
  rewrite E'. returned. eapply follows_trans; eassumption.
Qed.

Lemma total_OneOf {T} n (parsers : list (Parser T)) :
  (forall p, In p parsers -> total_from n p) -> total_from n (OneOf parsers).
Proof.
  intros Hall s Hg Hb Hrem. unfold OneOf. generalize ErrNoMatch.
  induction parsers as [|p rest IH]; intros err; simpl.
  - returned. apply follows_refl, Hb.
  - destruct (Hall p (or_introl eq_refl) s Hg Hb Hrem)
      as ([v|e] & s' & E & Hf); rewrite E; simpl.
    + returned. exact Hf.
    + apply IH. intros q Hq. apply Hall. right. exact Hq.
Qed.

Lemma total_ConsumeIf n condition : total_from n (ConsumeIf condition).
Proof.
  intros s Hg Hb _. unfold ConsumeIf.
  destruct (nextRune_returns s Hg Hb) as (r & s' & -> & Hf & _). simpl.
  destruct (condition r); simpl; returned;
    [exact Hf | apply follows_refl, Hb].
Qed.

Lemma total_ConsumeWhile n fuel condition :
  condition utf8.RuneError = false -> (n <= fuel)%nat ->
  total_from n (ConsumeWhile fuel condition).
Proof.
  intros Hc Hle s Hg Hb Hrem.
  destruct (ConsumeWhile_for_returns condition Hc fuel s Hg Hb ltac:(lia))
    as [s' E].
  pose proof (advances_ConsumeWhile fuel condition s Hg Hb) as Hf.
  unfold ConsumeWhile in *. rewrite E in *. eauto.
Qed.

Lemma total_Exactly n token : total_from n (Exactly token).
Proof.
  intros s Hg Hb _.
  pose proof (advances_Exactly token s Hg Hb) as Hf.
  rewrite (Exactly_in_bounds token s Hg Hb) in *.
  destruct (_ && _); eauto.
Qed.

Lemma total_GetString {T} n (p : Parser T) :
  total_from n p -> total_from n (GetString p).
Proof.
  intros Hp s Hg Hb Hrem.
  destruct (Hp s Hg Hb Hrem) as ([v|e] & s' & E & Hf); unfold GetString;
    rewrite E; simpl; [|returned; apply follows_refl, Hb].
  pose proof Hf as [Hd Ho].
  rewrite slice_returns by (unfold in_bounds in Hb; lia).
  simpl. returned. exact Hf.
Qed.

Lemma total_AppendKeeping {T U} n (p : Parser T) (q : Parser U) :
  total_from n p -> total_from n q -> total_from n (AppendKeeping p q).
Proof.
  intros Hp Hq s Hg Hb Hrem.
  destruct (Hp s Hg Hb Hrem) as ([v|e] & s' & E & Hf); unfold AppendKeeping;
    rewrite E; simpl; [|returned; apply follows_refl, Hb].
  destruct (Hq s' (follows_go_state _ _ Hg Hf) (follows_in_bounds _ _ Hb Hf)
              (follows_remaining _ _ _ Hf Hrem)) as ([u|e] & s'' & E' & Hf');
    rewrite E'; simpl; returned;
    [eapply follows_trans; eassumption | apply follows_refl, Hb].
Qed.

Lemma total_AppendSkipping {T U} n (p : Parser T) (q : Parser U) :
  total_from n p -> total_from n q -> total_from n (AppendSkipping p q).
Proof.
  intros Hp Hq s Hg Hb Hrem.
  destruct (Hp s Hg Hb Hrem) as ([v|e] & s' & E & Hf); unfold AppendSkipping;
    rewrite E; simpl; [|returned; apply follows_refl, Hb].
  destruct (Hq s' (follows_go_state _ _ Hg Hf) (follows_in_bounds _ _ Hb Hf)
              (follows_remaining _ _ _ Hf Hrem)) as ([u|e] & s'' & E' & Hf');
    rewrite E'; simpl; returned;
    [eapply follows_trans; eassumption | apply follows_refl, Hb].
Qed.

Lemma total_Loop_for {A T} n (stepper : A -> Parser (Step A T))
  (initial : state) :
  (forall accum, total_from n (stepper accum)) ->
  (forall accum s step s',
      go_state s -> in_bounds s ->
      stepper accum s = Returns (Val step, s') -> Done step = false ->
      offset s < offset s') ->
  go_state initial -> in_bounds initial ->
  len (data initial) - offset initial < Z.of_nat n ->
  forall fuel accum current,
    follows initial current ->
    len (data current) - offset current < Z.of_nat fuel ->
    exists r s',
      Loop_for fuel stepper initial accum current = Returns (r, s') /\
      follows initial s'.
Proof.
  intros Hs Hprog Hg Hb Hrem.
  induction fuel as [|fuel IH]; intros accum current Hf Hfuel.
  - destruct Hf as [Hd Ho]. lia.
  - simpl.
    pose proof (follows_go_state _ _ Hg Hf) as Hg'.
    pose proof (follows_in_bounds _ _ Hb Hf) as Hb'.
    destruct (Hs accum current Hg' Hb' (follows_remaining _ _ _ Hf Hrem))
      as ([step|e] & next & E & Hf'); rewrite E; simpl;
      [|returned; apply follows_refl, Hb].
    assert (Hfn : follows initial next) by (eapply follows_trans; eassumption).
    destruct (Done step) eqn:Ed; [returned; exact Hfn|].
    apply IH; [exact Hfn|].
    pose proof (Hprog accum current step next Hg' Hb' E Ed).
    destruct Hf' as [Hd' Ho']. rewrite Hd'. lia.
Qed.

(** X15. A criterion for [Loop] to return.  Suppose that every parser the
    stepper makes, run on a cursor within bounds with fewer than [n] bytes
    left, returns without a panic a cursor that follows the one it was given
    (the same input, an offset not smaller and not past the end), and that
    every step that asks to continue has consumed at least a byte.  Then
    [Loop] with a clock of at least [n] does the same on every cursor within
    bounds with fewer than [n] bytes left: it neither panics nor runs for
    ever, and the cursor it returns follows the one it was given. *)
Theorem Loop_returns_when_continuing_steps_consume :
  forall (A T : Type) (n fuel : nat) (startAccum : A)
         (stepper : A -> Parser (Step A T)),
    (n <= fuel)%nat ->
    (forall accum, total_from n (stepper accum)) ->
    (forall accum s step s',
        go_state s -> in_bounds s ->
        stepper accum s = Returns (Val step, s') -> Done step = false ->
        offset s < offset s') ->
    total_from n (Loop fuel startAccum stepper).
Proof.
  intros A T n fuel startAccum stepper Hle Hs Hprog s Hg Hb Hrem.
  unfold Loop.
  apply (total_Loop_for n stepper s Hs Hprog Hg Hb Hrem).
  - apply follows_refl, Hb.
  - lia.
Qed.

Lemma Loop_returns_when_continuing_steps_consume_witness :
  exists r s',
    Loop 4 0 count_a {| data := "aa;"; offset := 0 |} = Returns (r, s') /\
    follows {| data := "aa;"; offset := 0 |} s'.
Proof.
  apply (Loop_returns_when_continuing_steps_consume Z Z 4 4 0 count_a).
  - apply le_n.
  - intros accum. unfold count_a. apply total_OneOf.
    intros p [<-|[<-|[]]]; apply total_Map, total_Exactly.
  - intros accum s step s' Hg Hb. unfold count_a, OneOf. simpl. unfold Map.
    rewrite !(Exactly_in_bounds _ s Hg Hb).
    destruct (_ && _); simpl.
    + intros [= <- <-] _. simpl. unfold len. simpl. lia.
    + destruct (_ && _); simpl; [|discriminate].
      intros [= <- <-]. discriminate.
  - unfold go_state. vm_compute. discriminate.
  - unfold in_bounds. vm_compute. split; discriminate.
  - vm_compute. reflexivity.
Defined.

(** ** Progress *)

Lemma progresses_ConsumeIf condition :
  condition utf8.RuneError = false -> progresses (ConsumeIf condition).
Proof.
  intros Hc s Hg Hb v s'. unfold ConsumeIf.
  destruct (nextRune_returns s Hg Hb) as (r & s1 & -> & Hf & Hend & Hadv).
  simpl. destruct (condition r) eqn:Er; simpl; [|discriminate].
  intros [= _ <-]. apply Hadv.
  destruct (Z.eq_dec (offset s) (len (data s))) as [He|Hne].
  - destruct (Hend He) as [-> _]. congruence.
  - unfold in_bounds in Hb. lia.
Qed.

Lemma progresses_Map {T A} (p : Parser T) (mapper : T -> A) :
  progresses p -> progresses (Map p mapper).
Proof.
  intros Hp s Hg Hb v s'. unfold Map.
  destruct (p s) as [[[t|e] s1]| |] eqn:E; simpl; try discriminate.
  intros [= _ <-]. eapply Hp; eassumption.
Qed.

Lemma progresses_GetString {T} (p : Parser T) :
  progresses p -> progresses (GetString p).
Proof.
  intros Hp s Hg Hb v s'. unfold GetString.
  destruct (p s) as [[[t|e] s1]| |] eqn:E; simpl; try discriminate.
  destruct (slice _ _ _); simpl; try discriminate.
  intros [= _ <-]. eapply Hp; eassumption.
Qed.

Lemma progresses_AndThen_l {T U} (p : Parser T) (handler : T -> Parser U) :
  advances p -> progresses p -> (forall t, advances (handler t)) ->
  progresses (AndThen p handler).
Proof.
  intros Ha Hp Hh s Hg Hb v s'. unfold AndThen.
  pose proof (Ha s Hg Hb) as Hf.
  destruct (p s) as [[[t|e] s1]| |] eqn:E; simpl; try discriminate.
  pose proof (Hh t s1 (follows_go_state _ _ Hg Hf)
                (follows_in_bounds _ _ Hb Hf)) as Hf'.
  intros E'. rewrite E' in Hf'.
  pose proof (Hp s Hg Hb t s1 E). destruct Hf' as [_ Ho]. lia.
Qed.

Lemma progresses_AppendSkipping_l {T U} (p : Parser T) (q : Parser U) :
  advances p -> progresses p -> advances q ->
  progresses (AppendSkipping p q).
Proof.
  intros Ha Hp Hq s Hg Hb v s'. unfold AppendSkipping.
  pose proof (Ha s Hg Hb) as Hf.
  destruct (p s) as [[[t|e] s1]| |] eqn:E; simpl; try discriminate.
  pose proof (Hq s1 (follows_go_state _ _ Hg Hf)
                (follows_in_bounds _ _ Hb Hf)) as Hf'.
  destruct (q s1) as [[[u|e] s2]| |]; simpl; try discriminate.
  intros [= _ <-].
  pose proof (Hp s Hg Hb t s1 E). destruct Hf' as [_ Ho]. lia.
Qed.

Lemma progresses_AppendKeeping_l {T U} (p : Parser T) (q : Parser U) :
  advances p -> progresses p -> advances q ->
  progresses (AppendKeeping p q).
Proof.
  intros Ha Hp Hq s Hg Hb v s'. unfold AppendKeeping.
  pose proof (Ha s Hg Hb) as Hf.
  destruct (p s) as [[[t|e] s1]| |] eqn:E; simpl; try discriminate.
  pose proof (Hq s1 (follows_go_state _ _ Hg Hf)
                (follows_in_bounds _ _ Hb Hf)) as Hf'.
  destruct (q s1) as [[[u|e] s2]| |]; simpl; try discriminate.
  intros [= _ <-].
  pose proof (Hp s Hg Hb t s1 E). destruct Hf' as [_ Ho]. lia.
Qed.

Lemma progresses_AppendKeeping_r {T U} (p : Parser T) (q : Parser U) :
  advances p -> progresses q -> progresses (AppendKeeping p q).
Proof.
  intros Ha Hq s Hg Hb v s'. unfold AppendKeeping.
  pose proof (Ha s Hg Hb) as Hf.
  destruct (p s) as [[[t|e] s1]| |] eqn:E; simpl; try discriminate.
  destruct (q s1) as [[[u|e] s2]| |] eqn:E'; simpl; try discriminate.
  intros [= _ <-].
  pose proof (Hq s1 (follows_go_state _ _ Hg Hf)
                (follows_in_bounds _ _ Hb Hf) u s2 E').
  destruct Hf as [_ Ho]. lia.
Qed.

(** ** The configuration grammar always returns *)

Ltac built_grammar :=
  apply Built_advances; built; try apply intParser_handler_Built.

Ltac total :=
  repeat first
    [ apply total_Succeed | apply total_Fail | apply total_Exactly
    | apply total_ConsumeIf
    | apply total_ConsumeWhile; [reflexivity | apply le_n]
    | apply total_GetString
    | apply total_AppendKeeping | apply total_AppendSkipping
    | apply total_AndThen; [|intros ?]
    | apply total_OneOf;
      let p := fresh "p" in let H := fresh "H" in
      intros p H; simpl in H;
      repeat (destruct H as [<-|H]; [|try contradiction])
    | apply total_Map ].

Lemma total_intParser_handler n (digits : string) :
  total_from n (example.intParser_handler digits).
Proof.
  unfold example.intParser_handler.
  destruct (_ && _); [total|]. destruct (strconv.Atoi digits); total.
Qed.

Section Grammar.

Variable fuel : nat.

Let cfg := example.NewConfigParser fuel.

Lemma total_whitespaceParser : total_from fuel (example.whitespaceParser cfg).
Proof. cbv [cfg example.NewConfigParser example.whitespaceParser]. total. Qed.

Lemma total_bindingParser : total_from fuel (example.bindingParser cfg).
Proof.
  cbv [cfg example.NewConfigParser example.bindingParser].
  unfold ConsumeSome, StartKeeping, StartSkipping.
  total; apply total_intParser_handler.
Qed.

Lemma advances_bindingParser : advances (example.bindingParser cfg).
Proof.
  cbv [cfg example.NewConfigParser example.bindingParser]. built_grammar.
Qed.

Lemma progresses_bindingParser : progresses (example.bindingParser cfg).
Proof.
  cbv [cfg example.NewConfigParser example.bindingParser].
  apply progresses_Map.
  apply progresses_AppendKeeping_l; [built_grammar| |built_grammar].
  apply progresses_AppendSkipping_l; [built_grammar| |built_grammar].
  apply progresses_AppendSkipping_l; [built_grammar| |built_grammar].
  apply progresses_AppendSkipping_l; [built_grammar| |built_grammar].
  apply progresses_Map, progresses_GetString.
  apply progresses_AndThen_l;
    [built_grammar | apply progresses_ConsumeIf; reflexivity
    | intros t; built_grammar].
Qed.

Lemma total_bindingsParser_stepper (bindings : example.BindingList) :
  total_from fuel
    (example.bindingsParser_stepper (example.bindingParser cfg)
       (example.whitespaceParser cfg) bindings).
Proof.
  pose proof total_bindingParser. pose proof total_whitespaceParser.
  unfold example.bindingsParser_stepper, StartSkipping.
  destruct bindings.
  - apply total_Map. assumption.
  - apply total_OneOf. intros p [<-|[<-|[]]]; [|apply total_Succeed].
    apply total_Map.
    repeat first [ assumption | apply total_Exactly | apply total_Map
                 | apply total_AppendKeeping | apply total_AppendSkipping ].
Qed.

Lemma bindingsParser_stepper_consumes (bindings : example.BindingList) :
  forall s step s',
    go_state s -> in_bounds s ->
    example.bindingsParser_stepper (example.bindingParser cfg)
      (example.whitespaceParser cfg) bindings s = Returns (Val step, s') ->
    Done step = false -> offset s < offset s'.
Proof.
  intros s step s' Hg Hb.
  pose proof progresses_bindingParser as Hp.
  unfold example.bindingsParser_stepper. destruct bindings.
  - intros E Hd.
    apply (progresses_Map _ _ Hp s Hg Hb step s' E).
  - unfold OneOf. simpl.
    match goal with
    | |- context [bind (?x s)] =>
        assert (Hx : progresses x);
        [|destruct (x s) as [[[st|e] s1]| |] eqn:E; simpl; try discriminate]
    end.
    + apply progresses_Map, progresses_AppendKeeping_r;
        [|exact Hp].
      cbv [cfg example.NewConfigParser example.whitespaceParser].
      built_grammar.
    + intros [= <- <-] _. eapply Hx; eassumption.
    + intros [= <- <-]. discriminate.
Qed.

Lemma total_ConfigurationParser :
  total_from fuel (example.ConfigurationParser cfg).
Proof.
  assert (Hloop : total_from fuel (example.bindingsParser cfg)).
  { intros s Hg Hb Hrem.
    change (example.bindingsParser cfg)
      with (Loop fuel example.nil_BindingList
              (example.bindingsParser_stepper (example.bindingParser cfg)
                 (example.whitespaceParser cfg))).
    unfold Loop.
    apply (total_Loop_for fuel _ s total_bindingsParser_stepper
             (fun a s0 st s1 Hg0 Hb0 => bindingsParser_stepper_consumes a s0 st s1 Hg0 Hb0)
             Hg Hb Hrem).
    - apply follows_refl, Hb.
    - exact Hrem. }
  pose proof total_whitespaceParser as Hws.
  change (example.ConfigurationParser cfg)
    with (Apply
            (AppendSkipping
               (AppendSkipping
                  (AppendKeeping
                     (AppendSkipping (StartSkipping (Exactly "["))
                        (example.whitespaceParser cfg))
                     (example.bindingsParser cfg))
                  (example.whitespaceParser cfg))
               (Exactly "]"))
            (fun b => b)).
  apply total_Map.
  repeat first [ assumption | apply total_Exactly | apply total_Map
               | apply total_AppendKeeping | apply total_AppendSkipping ].
Qed.

End Grammar.

(** X16. The configuration parser returns on every input: for an input
    [d] and a clock larger than the length of [d], [Parse] neither panics nor
    runs for ever.  (Every condition of the grammar rejects [RuneError], and
    every continuing step of its loop consumes a binding.) *)
Theorem ConfigurationParser_returns_on_every_input :
  forall (fuel : nat) (d : string),
    len d <= max_int -> len d < Z.of_nat fuel ->
    exists r,
      Parse (example.ConfigurationParser (example.NewConfigParser fuel)) d
      = Returns r.
Proof.
  intros fuel d Hlen Hfuel. unfold Parse.
  destruct (total_ConfigurationParser fuel {| data := d; offset := 0 |})
    as (r & s' & E & _).
  - exact Hlen.
  - unfold in_bounds. simpl. pose proof (len_nonneg d). lia.
  - simpl. lia.
  - rewrite E. simpl. destruct r; [|eauto].
    destruct (_ <? _); eauto.
Qed.

Lemma ConfigurationParser_returns_on_every_input_witness :
  len "[a=1,,]" <= max_int /\ len "[a=1,,]" < Z.of_nat 8 /\
  exists r,
    Parse (example.ConfigurationParser (example.NewConfigParser 8)) "[a=1,,]"
    = Returns r.
Proof.
  assert (H1 : len "[a=1,,]" <= max_int) by (vm_compute; discriminate).
  assert (H2 : len "[a=1,,]" < Z.of_nat 8) by (vm_compute; reflexivity).
  split; [exact H1|]. split; [exact H2|].
  exact (ConfigurationParser_returns_on_every_input 8 "[a=1,,]" H1 H2).
Defined.

(** ** What a capture measures *)

(** X17. Whatever the parser [p] is, a success of [GetString p] carries a
    string of exactly as many bytes as lie between the cursor given and the
    cursor returned, [p] itself succeeded with that cursor, and the two
    offsets are in order and within the input. *)
Theorem GetString_length_is_bytes_consumed :
  forall (T : Type) (p : Parser T) (s : state) (sub : string) (s' : state),
    GetString p s = Returns (Val sub, s') ->
    len sub = offset s' - offset s /\
    0 <= offset s <= offset s' /\ offset s' <= len (data s') /\
    exists v, p s = Returns (Val v, s').
Proof.
  intros T p s sub s'. unfold GetString.
  destruct (p s) as [[[v|e] s1]| |]; simpl; try discriminate.
  destruct (slice (data s1) (offset s) (offset s1)) as [x| |] eqn:E; simpl;
    try discriminate.
  intros [= <- <-]. apply slice_inv in E.
  destruct E as (H1 & H2 & H3). repeat split; try lia. eauto.
Qed.

Lemma GetString_length_is_bytes_consumed_witness :
  len "ab1" = offset {| data := "ab1=2"; offset := 3 |}
              - offset {| data := "ab1=2"; offset := 0 |}.
Proof.
  apply (GetString_length_is_bytes_consumed Empty
           (ConsumeWhile 5 example.isAlphaNum)
           {| data := "ab1=2"; offset := 0 |} "ab1"
           {| data := "ab1=2"; offset := 3 |}).
  vm_compute. reflexivity.
Defined.

(** ** Empty input and end of input *)

(** X18. On the empty input [Parse] of a parser built from the package
    never reports [ErrUnconsumedInput]: what it returns is a value or
    [ErrNoMatch]. *)
Theorem Parse_empty_input_value_or_ErrNoMatch :
  forall (T : Type) (p : Parser T) (r : res T),
    Built p -> Parse p "" = Returns r ->
    (exists v, r = Val v) \/ r = Error ErrNoMatch.
Proof.
  intros T p r Hp. unfold Parse.
  assert (Hg : go_state {| data := ""; offset := 0 |})
    by (unfold go_state; vm_compute; discriminate).
  assert (Hb : in_bounds {| data := ""; offset := 0 |})
    by (unfold in_bounds; vm_compute; split; discriminate).
  pose proof (Built_advances p Hp _ Hg Hb) as Hf.
  pose proof (Built_no_other_error p Hp {| data := ""; offset := 0 |}) as Hn.
  destruct (p {| data := ""; offset := 0 |}) as [[[v|e] final]| |]; simpl;
    try discriminate.
  - destruct Hf as [Hd Ho]. simpl in *. rewrite Hd in *.
    change (len "") with 0 in *.
    replace (offset final <? 0) with false
      by (symmetry; apply Z.ltb_ge; lia).
    intros [= <-]. left. eauto.
  - intros [= <-]. right. f_equal. eapply Hn. reflexivity.
Qed.

Lemma Parse_empty_input_value_or_ErrNoMatch_witness :
  (exists v, @Error (list example.Binding) ErrNoMatch = Val v)
  \/ @Error (list example.Binding) ErrNoMatch = Error ErrNoMatch.
Proof.
  apply (Parse_empty_input_value_or_ErrNoMatch _
           (example.ConfigurationParser (example.NewConfigParser 2))).
  - apply NewConfigParser_Built.
  - vm_compute. reflexivity.
Defined.

Lemma substring_no_bytes (s : string) : forall n, substring n 0 s = "".
Proof.
  induction s as [|c s IH]; intros [|n]; simpl; try reflexivity. apply IH.
Qed.

(** X19. At the end of the input, for a condition that rejects
    [RuneError]: [ConsumeIf] and [ConsumeSome] fail with [ErrNoMatch],
    [ConsumeWhile] succeeds, and all three return the cursor unchanged;
    [Exactly token] succeeds there, without moving, for the empty token and
    fails with [ErrNoMatch] for every other token. *)
Theorem at_end_of_input :
  forall (condition : rune -> bool) (fuel : nat) (token : string) (s : state),
    go_state s -> offset s = len (data s) ->
    condition utf8.RuneError = false ->
    ConsumeIf condition s = Returns (Error ErrNoMatch, s) /\
    ConsumeSome fuel condition s = Returns (Error ErrNoMatch, s) /\
    ConsumeWhile (S fuel) condition s = Returns (Val MkEmpty, s) /\
    Exactly token s
    = match token with
      | EmptyString => Returns (Val MkEmpty, s)
      | _ => Returns (Error ErrNoMatch, s)
      end.
Proof.
  intros condition fuel token s Hg He Hc.
  assert (Hb : in_bounds s)
    by (unfold in_bounds; pose proof (len_nonneg (data s)); lia).
  destruct (nextRune_returns s Hg Hb) as (r & s' & Hn & _ & Hend & _).
  destruct (Hend He) as [-> ->].
  assert (Hif : ConsumeIf condition s = Returns (Error ErrNoMatch, s)).
  { unfold ConsumeIf. rewrite Hn. simpl. rewrite Hc. reflexivity. }
  split; [exact Hif|]. split; [|split].
  - unfold ConsumeSome, AppendSkipping, StartSkipping, Map.
    rewrite Hif. reflexivity.
  - eapply ConsumeWhile_stops_at_once; eassumption.
  - rewrite (Exactly_in_bounds token s Hg Hb).
    destruct token as [|c token].
    + change (len "") with 0.
      replace (0 <=? len (data s) - offset s) with true
        by (symmetry; apply Z.leb_le; lia).
      simpl String.length. rewrite substring_no_bytes.
      simpl. rewrite Z.add_0_r. destruct s; reflexivity.
    + replace (len (String c token) <=? len (data s) - offset s) with false;
        [reflexivity|].
      symmetry. apply Z.leb_gt. rewrite He.
      unfold len. simpl String.length. lia.
Qed.

Lemma at_end_of_input_witness :
  ConsumeSome 3 example.isDecimalDigit {| data := "x="; offset := 2 |}
  = Returns (Error ErrNoMatch, {| data := "x="; offset := 2 |}) /\
  Exactly "]" {| data := "x="; offset := 2 |}
  = Returns (Error ErrNoMatch, {| data := "x="; offset := 2 |}).
Proof.
  assert (Hg : go_state {| data := "x="; offset := 2 |})
    by (unfold go_state; vm_compute; discriminate).
  pose proof (at_end_of_input example.isDecimalDigit 3 "]"
                {| data := "x="; offset := 2 |} Hg eq_refl eq_refl)
    as (_ & H1 & _ & H2).
  split; [exact H1 | exact H2].
Defined.
